(** * Mowan game engine: board model, duels, public-area settlement

    A shallow embedding of [backend/game_logic.py] (class [GameLogic]) and of
    the game routes of [backend/app.py] ([game_action], [get_game_state]),
    with the properties of the engine's design document, and further
    properties read off the code, proved against it.

    Conventions of the embedding:
    - Python [int]s are [Z]; player identifiers are [Z] as well.
    - A Python [dict] is a [gmap]; a board is [gmap string (option Z)], the
      value [None] being Python's [None] stored under an existing key.
    - A Python exception is the result [None] of an [option]-valued function
      ([Raised] for a request handler, which can also answer with an error).
    - The database is the set of [room_players] rows of the room and the
      room's own row; the [users] table and the action log are left out.
    - The [while] loop of [resolve_public_area] runs on fuel; the fuel the
      entry point hands it is shown to be enough. *)

From stdpp Require Import gmap strings list fin_maps fin_sets pretty sorting.
From Stdlib Require Import ZArith Ascii.

Local Open Scope string_scope.
Local Open Scope list_scope.
Local Open Scope Z_scope.

(** ** Board model *)

Module Board.

(** [GameLogic.COL_NAMES] *)
Definition COL_NAMES : list ascii := ["A"; "B"; "C"; "D"; "E"; "F"]%char.

(** [int(c)] for a one-character string [c]: a decimal digit, or
    [ValueError]. *)
Definition int_of_char (c : ascii) : option Z :=
  let code := Z.of_nat (nat_of_ascii c) in
  if decide (48 ≤ code ≤ 57) then Some (code - 48) else None.

(** [COL_NAMES.index(c)]: the first position of [c], or [ValueError]. *)
Definition col_index (c : ascii) : option nat :=
  fst <$> list_find (λ x, x = c) COL_NAMES.

(** [get_cell_position]: ['1A'] is parsed to [(0, 0)].  Only the first two
    characters of the identifier are looked at. *)
Definition get_cell_position (cell_id : string) : option (Z * nat) :=
  match cell_id with
  | String c0 (String c1 _) =>
      r ← int_of_char c0;
      col ← col_index c1;
      Some (r - 1, col)
  | _ => None
  end.

(** [get_cell_id]: the f-string [f"{row + 1}{COL_NAMES[col]}"]. *)
Definition get_cell_id (row : Z) (col : nat) : option string :=
  name ← COL_NAMES !! col;
  Some (pretty (row + 1) +:+ String name "").

(** [get_front_cell]: one row closer to the public area, same column; the
    sentinel ['public'] from the front row. *)
Definition get_front_cell (cell_id : string) : option string :=
  '(row, col) ← get_cell_position cell_id;
  if decide (row = 0) then Some "public" else get_cell_id (row - 1) col.

(** [cell_id in board and board[cell_id] is not None] *)
Definition occupied (board : gmap string (option Z)) (cell_id : string) : Prop :=
  ∃ n, board !! cell_id = Some (Some n).

Global Instance occupied_dec board cell_id : Decision (occupied board cell_id).
Proof.
  unfold occupied. destruct (board !! cell_id) as [[n|]|].
  - left; eauto.
  - right; intros [n ?]; discriminate.
  - right; intros [n ?]; discriminate.
Defined.

(** [can_move_forward]: the pair [(ok, message_or_destination)]. *)
Definition can_move_forward (board : gmap string (option Z)) (cell_id : string)
  : option (bool * string) :=
  if decide (occupied board cell_id) then
    front ← get_front_cell cell_id;
    if decide (front = "public") then Some (true, front)
    else if decide (occupied board front)
         then Some (false, "Target cell is occupied")
         else Some (true, front)
  else Some (false, "No piece at this position").

(** The identifier [f"{row}{col}"] of the cell in row [row] (1 is the front
    row) and column [col], as [create_empty_board] builds it. *)
Definition cell (row : Z) (col : ascii) : string := pretty row +:+ String col "".

(** [create_empty_board]: the 18 cells, none occupied. *)
Definition cell_ids : list string :=
  row ← [1; 2; 3]; col ← COL_NAMES; [cell row col].

Definition create_empty_board : gmap string (option Z) :=
  foldl (λ b c, <[c := None]> b) ∅ cell_ids.

(** [is_valid_board]: exactly ten values of the board are not [None]. *)
Definition board_count (board : gmap string (option Z)) : nat :=
  List.length (filter (λ kv, kv.2 ≠ None) (map_to_list board)).

Definition is_valid_board (board : gmap string (option Z)) : bool :=
  bool_decide (board_count board = 10%nat).

(** What a cell of a board summary shows: Python's ['occupied'] or, when
    everything is revealed, the digit itself. *)
Inductive cell_view := Occupied | Shown (n : Z).

(** The value stored per cell when digits are hidden:
    ['occupied' if num is not None else None]. *)
Definition redact (num : option Z) : option cell_view :=
  match num with Some _ => Some Occupied | None => None end.

(** The value stored per cell when the board itself is handed out. *)
Definition reveal (num : option Z) : option cell_view :=
  match num with Some n => Some (Shown n) | None => None end.

(** [get_board_summary] *)
Definition get_board_summary (board : gmap string (option Z)) (reveal_all : bool)
  : gmap string (option cell_view) :=
  if reveal_all then reveal <$> board else redact <$> board.

(** [GameLogic.ALL_NUMBERS = list(range(10))] *)
Definition ALL_NUMBERS : list Z := seqZ 0 10.

(** The set [placed] that [get_available_numbers] collects: every value of
    the board that is not [None]. *)
Definition placed (board : gmap string (option Z)) : gset Z :=
  list_to_set (omap snd (map_to_list board)).

(** [get_available_numbers]: [[n for n in ALL_NUMBERS if n not in placed]]. *)
Definition get_available_numbers (board : gmap string (option Z)) : list Z :=
  filter (λ n, n ∉ placed board) ALL_NUMBERS.

End Board.

(** ** Duels *)

(** [duel]: the winner, if any, and the owners that lose their piece. *)
Definition duel (num1 player1 num2 player2 : Z) : option Z * list Z :=
  if decide (num1 = num2) then (None, [player1; player2])
  else if bool_decide ((num1 = 0 ∧ (num2 = 6 ∨ num2 = 9))
                       ∨ (num2 = 0 ∧ (num1 = 6 ∨ num1 = 9)))
  then (None, [player1; player2])
  else if bool_decide (num1 = 8 ∧ num2 = 0) then (Some player1, [player2])
  else if bool_decide (num2 = 8 ∧ num1 = 0) then (Some player2, [player1])
  else if decide (num1 < num2) then (Some player1, [player2])
  else (Some player2, [player1]).

(** ** Public-area settlement *)

(** A piece in the public area: the dict [{'number': _, 'player_id': _}]. *)
Record piece := Piece { number : Z; player_id : Z }.

Global Instance piece_eq_dec : EqDecision piece.
Proof. solve_decision. Defined.

(** [{pid: idx for idx, pid in enumerate(turn_order)}]: a player listed
    twice keeps the later index. *)
Definition order_map (turn_order : list Z) : gmap Z nat :=
  foldl (λ m ip, <[ip.2 := ip.1]> m) ∅ (imap pair turn_order).

(** The sort key [order_map.get(x['player_id'], 999)]. *)
Definition rank (turn_order : list Z) (x : piece) : nat :=
  default 999%nat (order_map turn_order !! player_id x).

(** [list.sort(key=...)] is stable, so its result is the one of any stable
    sort; insertion from the right, placing an element before its equals. *)
Fixpoint insert_by {A} (key : A → nat) (x : A) (l : list A) : list A :=
  match l with
  | [] => [x]
  | y :: l' => if decide (key x ≤ key y)%nat then x :: l else y :: insert_by key x l'
  end.

Definition sort_by {A} (key : A → nat) (l : list A) : list A :=
  foldr (insert_by key) [] l.

(** [set(p['player_id'] for p in current_area)] *)
Definition players_in_area (current_area : list piece) : gset Z :=
  list_to_set (player_id <$> current_area).

(** The eliminated list's new entries, one per eliminated owner. *)
Definition eliminated_entries (p1 p2 : piece) (eliminated_ids : list Z) : list piece :=
  (λ eid, {| number := if decide (eid = player_id p1) then number p1 else number p2;
             player_id := eid |}) <$> eliminated_ids.

(** What one pass of the loop body leaves: the working set, the eliminated
    list, and the two pieces it handed to [duel]. *)
Definition duel_round (turn_order : list Z) (current_area eliminated : list piece)
  : option (list piece * list piece * (piece * piece)) :=
  match sort_by (rank turn_order) current_area with
  | p1 :: p2 :: rest =>
      let '(winner, eliminated_ids) :=
        duel (number p1) (player_id p1) (number p2) (player_id p2) in
      let eliminated := eliminated ++ eliminated_entries p1 p2 eliminated_ids in
      let current_area :=
        match winner with
        | Some w => rest ++ [if decide (w = player_id p1) then p1 else p2]
        | None => rest
        end in
      Some (current_area, eliminated, (p1, p2))
  | _ => None
  end.

(** The [while len(current_area) >= 2] loop with its two [break]s.  The last
    component records, in order, the pairs of pieces passed to [duel]; it is
    not part of what the Python function returns.  [None] stands for fuel
    that ran out (or an index error on the sorted list). *)
Fixpoint resolve_loop (fuel : nat) (turn_order : list Z)
    (current_area eliminated : list piece) (duels : list (piece * piece))
  : option (list piece * list piece * list (piece * piece)) :=
  if decide (length current_area < 2)%nat then Some (current_area, eliminated, duels)
  else
    match fuel with
    | O => None
    | S fuel =>
        '(current_area, eliminated, d) ← duel_round turn_order current_area eliminated;
        if decide (length current_area < 2)%nat
        then Some (current_area, eliminated, duels ++ [d])
        else if decide (size (players_in_area current_area) < 2)%nat
        then Some (current_area, eliminated, duels ++ [d])
        else resolve_loop fuel turn_order current_area eliminated (duels ++ [d])
    end.

(** [resolve_public_area], together with the duels it ran. *)
Definition resolve_with_duels (public_area : list piece) (turn_order : list Z)
  : option (list piece * list piece * option Z * list (piece * piece)) :=
  match public_area with
  | [] => Some ([], [], None, [])
  | [p] => Some ([], [], Some (player_id p), [])
  | _ =>
      '(current_area, eliminated, duels) ←
        resolve_loop (length public_area) turn_order public_area [] [];
      Some (current_area, eliminated, None, duels)
  end.

(** [resolve_public_area]:
    [(updated_public_area, eliminated, extra_action_player)]. *)
Definition resolve_public_area (public_area : list piece) (turn_order : list Z)
  : option (list piece * list piece * option Z) :=
  fst <$> resolve_with_duels public_area turn_order.

(** ** Win detection *)

(** A player's record in [players_data]. *)
Record player_data := PlayerData {
  board : gmap string (option Z);
  eliminated : list Z
}.

(** [check_winner]'s list of players whose board still counts a piece.  The
    dict's iteration order only decides the order of this list. *)
Definition active_players (players_data : gmap Z player_data) : list Z :=
  fst <$> filter (λ kv, (0 < Board.board_count (board kv.2))%nat)
                 (map_to_list players_data).

(** [check_winner] *)
Definition check_winner (players_data : gmap Z player_data) : option Z :=
  match active_players players_data with
  | [w] => Some w
  | _ => None
  end.

(** ** Turn advance *)

(** The end of [game_action], reached after any action that was applied:
    [next_turn = (current_turn_idx + 1) % len(turn_order)], and the round
    goes up when the turn wraps.  [%] on an empty turn order raises. *)
Definition next_turn (current_turn_idx : Z) (turn_order : list Z) : option Z :=
  if decide (length turn_order = 0%nat) then None
  else Some ((current_turn_idx + 1) `mod` Z.of_nat (length turn_order)).


(** ** Requests against a room: [game_action] in [backend/app.py] *)

(** How a step of the request handler ends: an unhandled exception, an early
    [return jsonify({'error': ...}), code] taken before anything is stored,
    or the values the handler goes on with. *)
Inductive outcome (A : Type) :=
| Raised
| Rejected (error : string) (code : Z)
| Applied (a : A).
Arguments Raised {A}.
Arguments Rejected {A} error code.
Arguments Applied {A} a.

Global Instance outcome_ret : MRet outcome := @Applied.
Global Instance outcome_bind : MBind outcome := λ A B f m,
  match m with
  | Raised => Raised
  | Rejected error code => Rejected error code
  | Applied a => f a
  end.

Definition of_option {A} (o : option A) : outcome A :=
  match o with Some a => Applied a | None => Raised end.

(** [l[i]] on a Python list: a negative index counts from the end, and an
    index outside the list raises. *)
Definition py_index {A} (l : list A) (i : Z) : option A :=
  if decide (0 ≤ i) then l !! Z.to_nat i
  else if decide (0 ≤ i + Z.of_nat (length l))
       then l !! Z.to_nat (i + Z.of_nat (length l))
       else None.

(** The [room_players] rows of one room that [get_room_players] returns,
    keyed by [user_id] (the table is [UNIQUE(room_id, user_id)]).  The JSON
    of the [board] and [eliminated] columns is kept decoded. *)
Definition players_table := gmap Z player_data.

(** [db.update_player_board]: an SQL [UPDATE ... WHERE user_id = ?]; without
    such a row nothing changes. *)
Definition update_player_board (db : players_table) (user_id : Z)
    (b : gmap string (option Z)) (elim : list Z) : players_table :=
  alter (λ _, PlayerData b elim) user_id db.

(** The ['forward'] branch: the mover's board and the public area as the
    branch leaves them.  [can_move] is true only for a cell that holds a
    digit, which is what [board[cell_id]] then reads. *)
Definition forward_action (b : gmap string (option Z)) (area : list piece)
    (user_id : Z) (cell_id : string)
  : outcome (gmap string (option Z) * list piece) :=
  '(can_move, result) ← of_option (Board.can_move_forward b cell_id);
  if negb can_move then Rejected result 400
  else
    num ← of_option (mjoin (b !! cell_id));
    let b := <[cell_id := None]> b in
    if decide (result = "public")
    then Applied (b, area ++ [Piece num user_id])
    else Applied (<[result := Some num]> b, area).

(** [[(i, p) for i, p in enumerate(public_area) if p['player_id'] == user_id]] *)
Definition player_pieces (area : list piece) (user_id : Z) : list (nat * piece) :=
  filter (λ ip, player_id ip.2 = user_id) (imap pair area).

(** The ['recycle'] branch: [piece_idx] is [action_data.get('piece_index', 0)]. *)
Definition recycle_action (b : gmap string (option Z)) (area : list piece)
    (user_id : Z) (piece_idx : Z) (target_cell : string)
  : outcome (gmap string (option Z) * list piece) :=
  if decide (length area = 0%nat) then Rejected "Public area is empty" 400
  else
    let pieces := player_pieces area user_id in
    if decide (pieces = []) then Rejected "No piece in public area" 400
    else if decide (Z.of_nat (length pieces) ≤ piece_idx)
    then Rejected "Invalid piece index" 400
    else
      '(idx, p) ← of_option (py_index pieces piece_idx);
      if decide (b !! target_cell = Some None)
      then Applied (<[target_cell := Some (number p)]> b, delete idx area)
      else Rejected "Invalid target cell" 400.

(** The inner loop of the round-end return of leftover pieces: the first
    cell [f"3{col}"], in column order, for which [owner_board.get(cell_id)]
    is [None] takes the piece; when there is none the board is unchanged. *)
Fixpoint place_in_back_row (cols : list ascii) (owner_board : gmap string (option Z))
    (num : Z) : gmap string (option Z) :=
  match cols with
  | [] => owner_board
  | col :: cols =>
      let cell_id := "3" +:+ String col "" in
      if decide (Board.occupied owner_board cell_id)
      then place_in_back_row cols owner_board num
      else <[cell_id := Some num]> owner_board
  end.

(** The loop [for e in eliminated]: each entry is written from the row of
    [players], the rows fetched at the start of the request. *)
Definition record_eliminated (players db : players_table) (elim : list piece)
  : players_table :=
  foldl (λ db e,
           match players !! player_id e with
           | Some e_player =>
               update_player_board db (player_id e) (board e_player)
                 (eliminated e_player ++ [number e])
           | None => db
           end) db elim.

(** The loop [for piece in public_area] that returns leftover pieces to
    their owners' back rows, again from the rows of [players]. *)
Definition return_leftovers (players db : players_table) (area : list piece)
  : players_table :=
  foldl (λ db p,
           match players !! player_id p with
           | Some owner =>
               update_player_board db (player_id p)
                 (place_in_back_row Board.COL_NAMES (board owner) (number p))
                 (eliminated owner)
           | None => db
           end) db area.

(** The ['challenge'] branch: the target's piece goes to the public area,
    which is settled at once; the eliminations are recorded, and then the
    target's row is written with its new board and the [eliminated] column
    fetched at the start of the request. *)
Definition challenge_action (players db : players_table) (area : list piece)
    (turn_order : list Z) (target_id : Z) (target_cell : string)
  : outcome (players_table * list piece) :=
  match players !! target_id with
  | None => Rejected "Target player not found" 404
  | Some target_player =>
      match board target_player !! target_cell with
      | Some (Some num) =>
          let target_board := <[target_cell := None]> (board target_player) in
          let area := area ++ [Piece num target_id] in
          '(area, elim, _) ← of_option (resolve_public_area area turn_order);
          let db := record_eliminated players db elim in
          let db := update_player_board db target_id target_board
                      (eliminated target_player) in
          Applied (db, area)
      | _ => Rejected "Invalid target cell" 400
      end
  end.

(** The columns of a [rooms] row that [game_action] reads and writes. *)
Record room := Room {
  room_status : string;
  room_turn_order : list Z;
  room_current_round : Z;
  room_current_turn : Z;
  room_public_area : list piece
}.

(** The request body: [action_type] with the fields of [action_data] the
    action reads.  [Unknown] is any other [action_type]. *)
Inductive action :=
| Forward (cell_id : string)
| Challenge (target_id : Z) (target_cell : string)
| Recycle (piece_index : Z) (target_cell : string)
| Pass
| Unknown (action_type : string).

(** The two success bodies: ['Action processed'] with [next_turn] and
    [next_round], and ['Game finished'] with the winner. *)
Inductive reply :=
| ActionProcessed (nt next_round : Z)
| GameFinished (winner : Z).

(** The [if]/[elif] chain over [action_type]: the players' rows and the
    public area once the branch has stored its changes. *)
Definition apply_action (players db : players_table) (current_player : player_data)
    (area : list piece) (turn_order : list Z) (user_id : Z) (act : action)
  : outcome (players_table * list piece) :=
  match act with
  | Forward cell_id =>
      '(b, area) ← forward_action (board current_player) area user_id cell_id;
      Applied (update_player_board db user_id b (eliminated current_player), area)
  | Challenge target_id target_cell =>
      challenge_action players db area turn_order target_id target_cell
  | Recycle piece_idx target_cell =>
      '(b, area) ← recycle_action (board current_player) area user_id
                     piece_idx target_cell;
      Applied (update_player_board db user_id b (eliminated current_player), area)
  | Pass => Applied (db, area)
  | Unknown _ => Rejected "Invalid action type" 400
  end.

(** The settlement phase at the end of a round: settle the public area,
    record the eliminations, hand the leftover pieces back, and look for a
    winner in the rows as they are then. *)
Definition settlement_phase (players db : players_table) (area : list piece)
    (turn_order : list Z) : outcome (players_table * option Z) :=
  '(area, elim, _) ← of_option (resolve_public_area area turn_order);
  let db := record_eliminated players db elim in
  let db := return_leftovers players db area in
  Applied (db, check_winner db).

(** [game_action]: the reply, the room's row and the players' rows after the
    request.  [players] is fetched once, before the action is applied.  A
    winner ends the request before the turn is stored; [if winner:] does not
    hold for a winner whose id is 0. *)
Definition game_action (room_row : option room) (db : players_table)
    (user_id : Z) (act : action) : outcome (reply * room * players_table) :=
  match room_row with
  | None => Rejected "Game not in progress" 400
  | Some r =>
      if decide (room_status r ≠ "playing") then Rejected "Game not in progress" 400
      else
        let turn_order := room_turn_order r in
        let current_turn_idx := room_current_turn r in
        current ← of_option (py_index turn_order current_turn_idx);
        if decide (current ≠ user_id) then Rejected "Not your turn" 403
        else
          let players := db in
          match players !! user_id with
          | None => Rejected "Player not found" 404
          | Some current_player =>
              '(db, area) ← apply_action players db current_player
                              (room_public_area r) turn_order user_id act;
              nt ← of_option (next_turn current_turn_idx turn_order);
              let next_round := room_current_round r in
              let processed next_round area db :=
                Applied (ActionProcessed nt next_round,
                         Room (room_status r) turn_order next_round nt area, db) in
              if decide (nt = 0) then
                let next_round := next_round + 1 in
                '(db, winner) ← settlement_phase players db area turn_order;
                match winner with
                | Some w =>
                    if decide (w ≠ 0)
                    then Applied (GameFinished w,
                                  Room "finished" turn_order (room_current_round r)
                                    current_turn_idx area, db)
                    else processed next_round [] db
                | None => processed next_round [] db
                end
              else processed next_round area db
          end
  end.

(** ** The state handed to a player: [get_game_state] in [backend/app.py] *)




(** * Properties *)

(** ** Duels *)

Section DuelOutcomes.
Variables (a pa b pb : Z).

Definition first_wins : Prop := duel a pa b pb = (Some pa, [pb]).
Definition second_wins : Prop := duel a pa b pb = (Some pb, [pa]).
Definition both_eliminated : Prop := duel a pa b pb = (None, [pa; pb]).

(** One side is 0 and the other is 6 or 9. *)
Definition zero_meets_6_or_9 : Prop :=
  (a = 0 ∧ (b = 6 ∨ b = 9)) ∨ (b = 0 ∧ (a = 6 ∨ a = 9)).
End DuelOutcomes.

(** The branch of [duel] that is taken, with the outcome of every test made
    on the way to it. *)
Ltac duel_branches a b :=
  unfold duel;
  destruct (decide (a = b));
  [| destruct (bool_decide_reflect
                 ((a = 0 ∧ (b = 6 ∨ b = 9)) ∨ (b = 0 ∧ (a = 6 ∨ a = 9))));
     [| destruct (bool_decide_reflect (a = 8 ∧ b = 0));
        [| destruct (bool_decide_reflect (b = 8 ∧ a = 0));
           [| destruct (decide (a < b)) ]]]].

(** C1: for digits [a], [b] in 0..9 and distinct owners, [duel] follows the
    precedence rules in their order (equal digits: both eliminated; 0 against
    6 or 9: both eliminated; 8 against 0: the 8 wins; otherwise the strictly
    smaller digit wins), and exactly one of "first wins", "second wins",
    "both eliminated" holds. *)
Theorem duel_precedence (a pa b pb : Z) :
  0 ≤ a ≤ 9 → 0 ≤ b ≤ 9 → pa ≠ pb →
  (a = b → both_eliminated a pa b pb) ∧
  (a ≠ b → zero_meets_6_or_9 a b → both_eliminated a pa b pb) ∧
  (a ≠ b → ¬ zero_meets_6_or_9 a b → a = 8 → b = 0 → first_wins a pa b pb) ∧
  (a ≠ b → ¬ zero_meets_6_or_9 a b → b = 8 → a = 0 → second_wins a pa b pb) ∧
  (a ≠ b → ¬ zero_meets_6_or_9 a b → ¬ (a = 8 ∧ b = 0) → ¬ (b = 8 ∧ a = 0) →
     (a < b → first_wins a pa b pb) ∧ (b < a → second_wins a pa b pb)) ∧
  (first_wins a pa b pb ∨ second_wins a pa b pb ∨ both_eliminated a pa b pb) ∧
  ¬ (first_wins a pa b pb ∧ second_wins a pa b pb) ∧
  ¬ (first_wins a pa b pb ∧ both_eliminated a pa b pb) ∧
  ¬ (second_wins a pa b pb ∧ both_eliminated a pa b pb).
Proof.
  intros Ha Hb Hne.
  unfold first_wins, second_wins, both_eliminated, zero_meets_6_or_9.
  duel_branches a b; repeat split; intros;
    try reflexivity; try tauto; try lia; try (by intuition congruence).
Qed.

Lemma duel_precedence_witness :
  second_wins 0 1 8 2 ∧ ¬ (first_wins 0 1 8 2 ∧ second_wins 0 1 8 2).
Proof.
  destruct (duel_precedence 0 1 8 2) as (_ & _ & _ & H4 & _ & _ & H7 & _);
    [lia | lia | lia |].
  split; [apply H4; unfold zero_meets_6_or_9; lia | exact H7].
Defined.

(** ** Board model *)

Section BoardModel.
Import Board.
Implicit Types (board : gmap string (option Z)) (cell_id : string).

Lemma cell_ids_eq :
  cell_ids = ["1A"; "1B"; "1C"; "1D"; "1E"; "1F";
              "2A"; "2B"; "2C"; "2D"; "2E"; "2F";
              "3A"; "3B"; "3C"; "3D"; "3E"; "3F"].
Proof. reflexivity. Qed.

(** The front cell of a board cell, by row and column. *)
Lemma get_front_cell_cell (row : Z) (col : ascii) :
  1 ≤ row ≤ 3 → col ∈ COL_NAMES →
  get_front_cell (cell row col)
  = Some (if decide (row = 1) then "public" else cell (row - 1) col).
Proof.
  intros Hrow Hcol.
  assert (row = 1 ∨ row = 2 ∨ row = 3) as [-> | [-> | ->]] by lia;
    unfold COL_NAMES in Hcol;
    repeat (apply elem_of_cons in Hcol as [-> | Hcol]; [reflexivity |]);
    by apply elem_of_nil in Hcol.
Qed.

Lemma cell_not_public (row : Z) (col : ascii) : cell row col ≠ "public" ∨ row < 0 ∨ 9 < row.
Proof.
  destruct (decide (0 ≤ row ≤ 9)) as [H|H]; [left | lia].
  assert (row = 0 ∨ row = 1 ∨ row = 2 ∨ row = 3 ∨ row = 4 ∨ row = 5
          ∨ row = 6 ∨ row = 7 ∨ row = 8 ∨ row = 9) as Hr by lia.
  destruct_or!; subst row; discriminate.
Qed.

Lemma no_piece_iff board cell_id :
  can_move_forward board cell_id = Some (false, "No piece at this position")
  ↔ ¬ occupied board cell_id.
Proof.
  unfold can_move_forward. case_decide as Hocc; [| tauto].
  split; [| tauto]. intros Heq. exfalso.
  destruct (get_front_cell cell_id) as [front|]; simpl in Heq; [| done].
  repeat case_decide; simplify_eq.
Qed.
End BoardModel.

(** C8: the move-legality check answers "no piece" exactly when the named
  cell holds no piece; from an occupied cell of row 1 the move to the
  public area is always allowed; from an occupied cell of row 2 or 3 the
  destination is the cell one row closer in the same column, and the check
  answers "occupied" exactly when that cell holds a piece and returns the
  destination otherwise. *)
Theorem can_move_forward_spec (board : gmap string (option Z)) (row : Z) (col : ascii) :
1 ≤ row ≤ 3 → col ∈ Board.COL_NAMES →
let cell_id := Board.cell row col in
let dest := if decide (row = 1) then "public" else Board.cell (row - 1) col in
Board.get_front_cell cell_id = Some dest ∧
(Board.can_move_forward board cell_id = Some (false, "No piece at this position")
 ↔ ¬ Board.occupied board cell_id) ∧
(Board.occupied board cell_id →
   (row = 1 → Board.can_move_forward board cell_id = Some (true, "public")) ∧
   (row ≠ 1 →
      (Board.can_move_forward board cell_id = Some (false, "Target cell is occupied")
       ↔ Board.occupied board dest) ∧
      (¬ Board.occupied board dest →
       Board.can_move_forward board cell_id = Some (true, dest)))).
Proof.
intros Hrow Hcol cell_id dest.
pose proof (get_front_cell_cell row col Hrow Hcol) as Hfront.
fold cell_id dest in Hfront.
split; [exact Hfront |]. split; [apply no_piece_iff |].
intros Hocc. unfold Board.can_move_forward.
rewrite decide_True by done. rewrite Hfront. simpl.
split.
- intros ->. subst dest. by rewrite !decide_True.
- intros Hne.
  assert (dest ≠ "public") as Hpub.
  { subst dest. rewrite decide_False by done.
    destruct (cell_not_public (row - 1) col); [done | lia]. }
  rewrite (decide_False (P := dest = "public")) by done.
  case_decide as Hd; split; try tauto; try done.
Qed.

Lemma can_move_forward_spec_witness :
Board.can_move_forward (<["2B" := Some 3]> Board.create_empty_board) "2B"
= Some (true, "1B").
Proof.
assert ("B"%char ∈ Board.COL_NAMES) as Hcol by (unfold Board.COL_NAMES; set_solver).
destruct (can_move_forward_spec (<["2B" := Some 3]> Board.create_empty_board)
            2 "B"%char ltac:(lia) Hcol) as (_ & _ & H).
destruct H as [_ H]; [by exists 3 |].
destruct H as [_ H]; [lia |].
apply H. intros [n Hn]. vm_compute in Hn. discriminate.
Defined.

(** ** Redacted board view *)

Section Redaction.
Import Board.
Implicit Types (board : gmap string (option Z)) (cell_id : string).

(** What the redacted summary stores under a cell. *)
Lemma summary_lookup board cell_id :
  get_board_summary board false !! cell_id = redact <$> board !! cell_id.
Proof. unfold get_board_summary. apply lookup_fmap. Qed.

Lemma redact_never_shows (num : option Z) (n : Z) : redact num ≠ Some (Shown n).
Proof. by destruct num. Qed.

Lemma redact_occupied board cell_id :
  get_board_summary board false !! cell_id = Some (Some Occupied)
  ↔ occupied board cell_id.
Proof.
  rewrite summary_lookup. unfold occupied.
  destruct (board !! cell_id) as [[n|]|]; simpl; split;
    first [by eauto | by intros [? ?] | done].
Qed.
End Redaction.

(** C9: the redacted summary ([reveal_all] false) shows per-cell occupancy
  only: two boards over the same cells in which the same cells hold a piece
  have the same summary, whatever the digits, and no entry of a redacted
  summary carries a digit. *)
Theorem redacted_summary_occupancy_only (board1 board2 : gmap string (option Z)) :
dom board1 = dom board2 →
(∀ cell_id, Board.occupied board1 cell_id ↔ Board.occupied board2 cell_id) →
Board.get_board_summary board1 false = Board.get_board_summary board2 false
∧ (∀ cell_id n,
     Board.get_board_summary board1 false !! cell_id ≠ Some (Some (Board.Shown n))).
Proof.
intros Hdom Hocc. split.
- apply map_eq. intros cell_id. rewrite !summary_lookup.
  assert (is_Some (board1 !! cell_id) ↔ is_Some (board2 !! cell_id)) as Hsome.
  { by rewrite <- !elem_of_dom, Hdom. }
  specialize (Hocc cell_id). unfold Board.occupied in Hocc.
  destruct (board1 !! cell_id) as [[n1|]|] eqn:H1,
           (board2 !! cell_id) as [[n2|]|] eqn:H2; simpl; try done.
  + destruct Hocc as [Hocc _]. destruct Hocc as [? ?]; [eauto | done].
  + destruct Hsome as [Hsome _]. destruct Hsome as [? ?]; [eauto | done].
  + destruct Hocc as [_ Hocc]. destruct Hocc as [? ?]; [eauto | done].
  + destruct Hsome as [Hsome _]. destruct Hsome as [? ?]; [eauto | done].
  + destruct Hsome as [_ Hsome]. destruct Hsome as [? ?]; [eauto | done].
  + destruct Hsome as [_ Hsome]. destruct Hsome as [? ?]; [eauto | done].
- intros cell_id n. rewrite summary_lookup.
  destruct (board1 !! cell_id) as [num|]; simpl; [| done].
  intros [= H]. by apply redact_never_shows in H.
Qed.

Lemma redacted_summary_occupancy_only_witness :
Board.get_board_summary (<["1A" := Some 7]> (<["2C" := None]> ∅)) false
= Board.get_board_summary (<["1A" := Some 2]> (<["2C" := None]> ∅)) false.
Proof.
apply (redacted_summary_occupancy_only
         (<["1A" := Some 7]> (<["2C" := None]> ∅))
         (<["1A" := Some 2]> (<["2C" := None]> ∅))).
- by rewrite !dom_insert_L.
- intros cell_id. unfold Board.occupied.
  destruct (decide (cell_id = "1A")) as [-> | Hne].
  + rewrite !lookup_insert_eq. split; eauto.
  + rewrite !(lookup_insert_ne _ "1A") by done. done.
Defined.

(** ** Turn advance *)



(** ** Win detection *)

(** A player is active when some cell of their board holds a piece. *)
Definition is_active (players_data : gmap Z player_data) (w : Z) : Prop :=
∃ data, players_data !! w = Some data ∧ ∃ cell_id, Board.occupied (board data) cell_id.

Section WinDetection.
Implicit Types (players_data : gmap Z player_data) (w : Z).

Lemma board_count_pos (b : gmap string (option Z)) :
  (0 < Board.board_count b)%nat ↔ ∃ cell_id, Board.occupied b cell_id.
Proof.
  unfold Board.board_count, Board.occupied. split.
  - intros Hpos.
    destruct (filter (λ kv, kv.2 ≠ None) (map_to_list b)) as [|[c v] l] eqn:Hf;
      [simpl in Hpos; lia |].
    assert ((c, v) ∈ filter (λ kv : string * option Z, kv.2 ≠ None) (map_to_list b))
      as Hin by (rewrite Hf; left).
    apply list_elem_of_filter in Hin as [Hv Hin]. simpl in Hv.
    apply elem_of_map_to_list in Hin.
    destruct v as [n|]; [by exists c, n | done].
  - intros (c & n & Hc).
    assert ((c, Some n) ∈ filter (λ kv : string * option Z, kv.2 ≠ None) (map_to_list b))
      as Hin.
    { apply list_elem_of_filter. split; [done | by apply elem_of_map_to_list]. }
    destruct (filter _ _); [by apply elem_of_nil in Hin | simpl; lia].
Qed.

Lemma elem_of_active_players players_data w :
  w ∈ active_players players_data ↔ is_active players_data w.
Proof.
  unfold active_players, is_active. rewrite list_elem_of_fmap. split.
  - intros ([w' data] & -> & Hin). apply list_elem_of_filter in Hin as [Hpos Hin].
    apply elem_of_map_to_list in Hin. simpl in *.
    exists data. split; [done | by apply board_count_pos].
  - intros (data & Hw & Hocc). exists (w, data). split; [done |].
    apply list_elem_of_filter. split; [by apply board_count_pos |].
    by apply elem_of_map_to_list.
Qed.

Lemma NoDup_active_players players_data : NoDup (active_players players_data).
Proof.
  unfold active_players.
  eapply sublist_NoDup; [apply (NoDup_fst_map_to_list players_data) |].
  apply fmap_sublist, sublist_filter.
Qed.

(** A duplicate-free list whose members are all equal to [w] and that
    contains [w] is [[w]]. *)
Lemma NoDup_all_equal (l : list Z) w :
  NoDup l → w ∈ l → (∀ w', w' ∈ l → w' = w) → l = [w].
Proof.
  intros Hnd Hin Hall. destruct l as [|x l]; [by apply elem_of_nil in Hin |].
  assert (x = w) as -> by (apply Hall; left).
  destruct l as [|y l]; [done |].
  assert (y = w) as -> by (apply Hall; right; left).
  apply NoDup_cons in Hnd as [Hnot _]. exfalso. apply Hnot. left.
Qed.

Lemma check_winner_Some players_data w :
  check_winner players_data = Some w
  ↔ is_active players_data w ∧ ∀ w', is_active players_data w' → w' = w.
Proof.
  unfold check_winner. split.
  - intros Heq.
    destruct (active_players players_data) as [|x [|y l]] eqn:Hact; simplify_eq.
    split.
    + apply elem_of_active_players. rewrite Hact. left.
    + intros w' Hw'. apply elem_of_active_players in Hw'. rewrite Hact in Hw'.
      by apply list_elem_of_singleton in Hw'.
  - intros [Hw Hall].
    rewrite (NoDup_all_equal (active_players players_data) w); [done | | |].
    + apply NoDup_active_players.
    + by apply elem_of_active_players.
    + intros w' Hw'. by apply Hall, elem_of_active_players.
Qed.
End WinDetection.

(** C7: [check_winner] names a winner exactly when one player, and no
  other, has a board with an occupied cell, and then names that player;
  with no active player or with two or more it reports no winner. *)
Theorem check_winner_spec (players_data : gmap Z player_data) :
(∀ w, check_winner players_data = Some w
      ↔ is_active players_data w ∧ ∀ w', is_active players_data w' → w' = w) ∧
(check_winner players_data = None
 ↔ (¬ ∃ w, is_active players_data w)
   ∨ (∃ w w', w ≠ w' ∧ is_active players_data w ∧ is_active players_data w')).
Proof.
split; [apply check_winner_Some |].
split.
- intros Hnone.
  destruct (active_players players_data) as [|x [|y l]] eqn:Hact.
  + left. intros [w Hw]. apply elem_of_active_players in Hw.
    rewrite Hact in Hw. by apply elem_of_nil in Hw.
  + unfold check_winner in Hnone. by rewrite Hact in Hnone.
  + right. exists x, y.
    pose proof (NoDup_active_players players_data) as Hnd. rewrite Hact in Hnd.
    apply NoDup_cons in Hnd as [Hnot _].
    split; [intros ->; apply Hnot; left |].
    split; apply elem_of_active_players; rewrite Hact; [left | right; left].
- intros Hcase.
  destruct (check_winner players_data) as [w|] eqn:Hw; [exfalso | done].
  apply check_winner_Some in Hw as [Hact Hall].
  destruct Hcase as [Hno | (w1 & w2 & Hne & H1 & H2)]; [by apply Hno; exists w |].
  apply Hne. by rewrite (Hall w1 H1), (Hall w2 H2).
Qed.

(** ** Sorting by turn order *)

Section SortBy.
Context {A : Type} (key : A → nat).

Lemma insert_by_Permutation (x : A) (l : list A) : insert_by key x l ≡ₚ x :: l.
Proof.
  induction l as [|y l IH]; simpl; [done |].
  case_decide; [done |]. rewrite IH. apply Permutation_swap.
Qed.

Lemma sort_by_Permutation (l : list A) : sort_by key l ≡ₚ l.
Proof.
  induction l as [|x l IH]; simpl; [done |].
  by rewrite insert_by_Permutation, IH.
Qed.

Lemma length_sort_by (l : list A) : length (sort_by key l) = length l.
Proof. apply Permutation_length, sort_by_Permutation. Qed.

Definition key_le (x y : A) : Prop := (key x ≤ key y)%nat.

Lemma insert_by_sorted (x : A) (l : list A) :
  Sorted key_le l → Sorted key_le (insert_by key x l).
Proof.
  induction 1 as [|y l Hs IH Hhd]; simpl.
  - repeat constructor.
  - case_decide as Hle.
    + constructor; [by constructor | by constructor].
    + constructor; [done |].
      destruct Hhd as [|z l Hyz]; simpl.
      * constructor. unfold key_le. lia.
      * case_decide; constructor; unfold key_le in *; lia.
Qed.

Lemma sort_by_sorted (l : list A) : Sorted key_le (sort_by key l).
Proof.
  induction l as [|x l IH]; simpl; [constructor | by apply insert_by_sorted].
Qed.

(** Stability: pieces of equal key keep their order. *)
Lemma insert_by_stable (k : nat) (x : A) (l : list A) :
  filter (λ y, key y = k) (insert_by key x l) = filter (λ y, key y = k) (x :: l).
Proof.
  induction l as [|y l IH]; simpl; [done |].
  case_decide as Hle; [done |].
  rewrite (filter_cons _ y), IH, !(filter_cons _ x), !(filter_cons _ y).
  repeat case_decide; try done; lia.
Qed.

Lemma sort_by_stable (k : nat) (l : list A) :
  filter (λ y, key y = k) (sort_by key l) = filter (λ y, key y = k) l.
Proof.
  induction l as [|x l IH]; simpl; [done |].
  rewrite insert_by_stable, !filter_cons, IH. done.
Qed.
End SortBy.

(** ** Public-area settlement *)

(** All pieces of the list have one owner. *)
Definition single_owner (area : list piece) : Prop :=
∀ p q, p ∈ area → q ∈ area → player_id p = player_id q.

Section Settlement.
Implicit Types (turn_order : list Z) (area eliminated : list piece)
  (duels : list (piece * piece)).

Lemma short_single_owner area : (length area < 2)%nat → single_owner area.
Proof.
  intros Hlen p q Hp Hq. destruct area as [|x [|y l]]; simpl in Hlen; try lia.
  - by apply elem_of_nil in Hp.
  - apply list_elem_of_singleton in Hp, Hq. by subst.
Qed.

Lemma few_players_single_owner area :
  (size (players_in_area area) < 2)%nat → single_owner area.
Proof.
  intros Hsize p q Hp Hq.
  assert (player_id p ∈ players_in_area area) as Hp'.
  { apply elem_of_list_to_set, list_elem_of_fmap. eauto. }
  assert (player_id q ∈ players_in_area area) as Hq'.
  { apply elem_of_list_to_set, list_elem_of_fmap. eauto. }
  destruct (size (players_in_area area)) as [|[|n]] eqn:Hs; [| | lia].
  - apply size_empty_inv in Hs. rewrite Hs in Hp'.
    by apply not_elem_of_empty in Hp'.
  - by apply (size_singleton_inv (players_in_area area)).
Qed.

(** One pass of the loop body on two or more pieces succeeds and leaves
    fewer pieces than it found. *)
Lemma duel_round_shrinks turn_order area eliminated :
  (2 ≤ length area)%nat →
  ∃ area' eliminated' d,
    duel_round turn_order area eliminated = Some (area', eliminated', d)
    ∧ (length area' < length area)%nat.
Proof.
  intros Hlen. unfold duel_round.
  pose proof (length_sort_by (rank turn_order) area) as Hsort.
  destruct (sort_by (rank turn_order) area) as [|p1 [|p2 rest]];
    simpl in Hsort; try lia.
  destruct (duel _ _ _ _) as [[w|] ids]; eexists _, _, _;
    (split; [reflexivity |]); rewrite ?length_app; simpl; lia.
Qed.

(** Enough fuel: the loop returns, and what it leaves has one owner. *)
Lemma resolve_loop_returns fuel turn_order area eliminated duels :
  (length area ≤ S fuel)%nat →
  ∃ area' eliminated' duels',
    resolve_loop fuel turn_order area eliminated duels
    = Some (area', eliminated', duels')
    ∧ single_owner area'.
Proof.
  revert area eliminated duels.
  induction fuel as [|fuel IH]; intros area eliminated duels Hfuel; simpl.
  - rewrite decide_True by lia.
    eexists _, _, _. split; [reflexivity | apply short_single_owner; lia].
  - case_decide as Hlen.
    { eexists _, _, _. split; [reflexivity | by apply short_single_owner]. }
    destruct (duel_round_shrinks turn_order area eliminated)
      as (area' & eliminated' & d & -> & Hshrink); [lia |]. simpl.
    case_decide as Hshort.
    { eexists _, _, _. split; [reflexivity | by apply short_single_owner]. }
    case_decide as Hfew.
    { eexists _, _, _. split; [reflexivity | by apply few_players_single_owner]. }
    apply IH. lia.
Qed.

(** More fuel than needed changes nothing. *)
Lemma resolve_loop_fuel_mono fuel fuel' turn_order area eliminated duels r :
  resolve_loop fuel turn_order area eliminated duels = Some r →
  (fuel ≤ fuel')%nat →
  resolve_loop fuel' turn_order area eliminated duels = Some r.
Proof.
  revert fuel' area eliminated duels.
  induction fuel as [|fuel IH]; intros fuel' area eliminated duels Hr Hle.
  - destruct fuel'; simpl in *; case_decide; done.
  - destruct fuel' as [|fuel']; [lia |]. simpl in *.
    case_decide; [done |].
    destruct (duel_round turn_order area eliminated) as [[[a e] d]|];
      simpl in *; [| done].
    repeat case_decide; try done. apply IH; [done | lia].
Qed.

Lemma resolve_with_duels_returns public_area turn_order :
  ∃ area eliminated extra duels,
    resolve_with_duels public_area turn_order = Some (area, eliminated, extra, duels)
    ∧ single_owner area
    ∧ ((2 ≤ length public_area)%nat → extra = None)
    ∧ (∀ o, extra = Some o ↔ ∃ n, public_area = [Piece n o]).
Proof.
  unfold resolve_with_duels.
  destruct public_area as [|p [|q l]].
  - exists [], [], None, []. split; [done |].
    split; [by apply short_single_owner; simpl; lia |].
    split; [done |]. intros o. split; [done | by intros [n ?]].
  - exists [], [], (Some (player_id p)), []. split; [done |].
    split; [by apply short_single_owner; simpl; lia |].
    split; [simpl; lia |]. intros o. split.
    + intros [= <-]. exists (number p). by destruct p.
    + intros [n [= ->]]. done.
  - destruct (resolve_loop_returns (length (p :: q :: l)) turn_order (p :: q :: l) [] [])
      as (a & e & ds & -> & Hsingle); [lia |].
    exists a, e, None, ds. split; [done |]. split; [done |].
    split; [done |]. intros o. split; [done | by intros [n ?]].
Qed.
End Settlement.

(** C2: on a public area with pieces of two or more owners the settlement
  returns (the fuel handed to the loop is enough, and more fuel gives the
  same answer), and all leftover pieces have one owner. *)
Theorem resolve_terminates_single_owner (public_area : list piece) (turn_order : list Z) :
(2 ≤ size (players_in_area public_area))%nat →
∃ area eliminated extra,
  resolve_public_area public_area turn_order = Some (area, eliminated, extra)
  ∧ single_owner area
  ∧ ∀ fuel r, (length public_area ≤ fuel)%nat →
      resolve_loop (length public_area) turn_order public_area [] [] = Some r →
      resolve_loop fuel turn_order public_area [] [] = Some r.
Proof.
intros _.
destruct (resolve_with_duels_returns public_area turn_order)
  as (area & eliminated & extra & duels & Heq & Hsingle & _).
exists area, eliminated, extra. unfold resolve_public_area. rewrite Heq.
split; [done |]. split; [done |].
intros fuel r Hfuel Hr. by apply (resolve_loop_fuel_mono (length public_area)).
Qed.

Lemma resolve_terminates_single_owner_witness :
∃ area eliminated extra,
  resolve_public_area [Piece 0 3; Piece 9 2; Piece 4 1; Piece 7 7] [1; 2; 3]
  = Some (area, eliminated, extra)
  ∧ single_owner area.
Proof.
destruct (resolve_terminates_single_owner
            [Piece 0 3; Piece 9 2; Piece 4 1; Piece 7 7] [1; 2; 3])
  as (area & eliminated & extra & Heq & Hsingle & _).
- vm_compute. lia.
- by exists area, eliminated, extra.
Defined.

(** C3 as the specification states it does not hold: on the public area
  [{5, owner 1}, {3, owner 2}] with turn order [1, 2] the leftover public
  area is not empty. *)
Lemma scenario_B_leftover_not_empty :
resolve_public_area [Piece 5 1; Piece 3 2] [1; 2] ≠ Some ([], [Piece 5 1], None).
Proof. vm_compute. discriminate. Qed.

(** C3, amended: on the public area [{5, owner 1}, {3, owner 2}] with turn
  order [1, 2], owner 1's piece is paired first, the duel goes to the
  smaller digit (owner 2 wins), the eliminations are exactly owner 1's 5,
  the winning piece {3, owner 2} is what is left over, and no extra-action
  player is reported. *)
Theorem scenario_B_winner_stays :
resolve_with_duels [Piece 5 1; Piece 3 2] [1; 2]
= Some ([Piece 3 2], [Piece 5 1], None, [(Piece 5 1, Piece 3 2)])
∧ duel 5 1 3 2 = (Some 2, [1])
∧ resolve_public_area [Piece 5 1; Piece 3 2] [1; 2]
  = Some ([Piece 3 2], [Piece 5 1], None).
Proof. by vm_compute. Qed.

(** C4: with exactly one piece in the public area there are no eliminations
  and the piece's owner is reported for the extra action, but the returned
  public area is empty: the piece is not in it. *)
Theorem single_piece_not_returned (p : piece) (turn_order : list Z) :
resolve_public_area [p] turn_order = Some ([], [], Some (player_id p))
∧ ∀ area eliminated extra,
    resolve_public_area [p] turn_order = Some (area, eliminated, extra) →
    p ∉ area.
Proof.
split; [done |]. intros area eliminated extra [= <- _ _]. apply not_elem_of_nil.
Qed.

(** C5: the loop hands [duel] two pieces of one owner.  With [{5, owner 1},
  {4, owner 2}, {3, owner 1}] and turn order [1, 2, 3] the first duel is
  between owner 1's 5 and owner 1's 3; the 5 is then both eliminated and
  kept, and the 3 is lost. *)
Theorem same_owner_duel :
resolve_with_duels [Piece 5 1; Piece 4 2; Piece 3 1] [1; 2; 3]
= Some ([Piece 4 2], [Piece 5 1; Piece 5 1], None,
        [(Piece 5 1, Piece 3 1); (Piece 5 1, Piece 4 2)])
∧ resolve_with_duels [Piece 5 1; Piece 3 1] [1; 2]
  = Some ([Piece 5 1], [Piece 5 1], None, [(Piece 5 1, Piece 3 1)])
∧ ∃ area eliminated extra duels p q,
    resolve_with_duels [Piece 5 1; Piece 4 2; Piece 3 1] [1; 2; 3]
    = Some (area, eliminated, extra, duels)
    ∧ (p, q) ∈ duels ∧ player_id p = player_id q.
Proof.
split; [by vm_compute |]. split; [by vm_compute |].
eexists _, _, _, _, (Piece 5 1), (Piece 3 1).
split; [by vm_compute |]. split; [left | done].
Qed.

(** C10: the settlement always returns; on two or more pieces it reports no
  extra-action player, whatever is left over, and it reports an owner
  exactly when the public area it was given holds one piece, of that
  owner. *)
Theorem extra_action_only_for_single_piece (public_area : list piece) (turn_order : list Z) :
∃ area eliminated extra,
  resolve_public_area public_area turn_order = Some (area, eliminated, extra)
  ∧ ((2 ≤ length public_area)%nat → extra = None)
  ∧ (∀ o, extra = Some o ↔ ∃ n, public_area = [Piece n o]).
Proof.
destruct (resolve_with_duels_returns public_area turn_order)
  as (area & eliminated & extra & duels & Heq & _ & Hnone & Hsome).
exists area, eliminated, extra. unfold resolve_public_area. by rewrite Heq.
Qed.

Lemma extra_action_only_for_single_piece_witness :
resolve_public_area [Piece 5 1; Piece 3 2] [1; 2]
= Some ([Piece 3 2], [Piece 5 1], None).
Proof.
destruct (extra_action_only_for_single_piece [Piece 5 1; Piece 3 2] [1; 2])
  as (area & eliminated & extra & Heq & Hnone & _).
rewrite Hnone in Heq by (simpl; lia).
rewrite Heq. vm_compute in Heq. by injection Heq as <- <-.
Defined.

(** * Further properties of the engine *)

(** ** Duels *)

Lemma duel_swap_eq (a pa b pb : Z) :
duel b pb a pa = ((duel a pa b pb).1, reverse (duel a pa b pb).2).
Proof.
duel_branches a b; duel_branches b a; simpl; try reflexivity; exfalso; lia.
Qed.

(** The three shapes a duel's result can take, for any integers. *)
Lemma duel_shape (a pa b pb : Z) :
duel a pa b pb = (None, [pa; pb]) ∨ duel a pa b pb = (Some pa, [pb])
∨ duel a pa b pb = (Some pb, [pa]).
Proof. duel_branches a b; auto. Qed.

(** X1: a duel does not depend on which piece is passed first: with the two
  sides swapped the winner is the same and the list of eliminated owners is
  the same list reversed, for any integers and owners. *)
Theorem duel_swap (a pa b pb : Z) :
(duel b pb a pa).1 = (duel a pa b pb).1
∧ (duel b pb a pa).2 = reverse (duel a pa b pb).2.
Proof. by rewrite duel_swap_eq. Qed.

(** ** Cell identifiers and positions *)

(** A character that [int] accepts is the decimal digit it stands for. *)
Lemma digit_char (c0 : ascii) (d : Z) :
Board.int_of_char c0 = Some d → 0 ≤ d ≤ 9 ∧ pretty d = String c0 "".
Proof.
unfold Board.int_of_char. intros H. case_decide as Hc; [| done]. injection H as <-.
split; [lia |].
rewrite <- (ascii_nat_embedding c0).
set (n := nat_of_ascii c0) in *.
assert (n = 48 ∨ n = 49 ∨ n = 50 ∨ n = 51 ∨ n = 52 ∨ n = 53 ∨ n = 54
        ∨ n = 55 ∨ n = 56 ∨ n = 57)%nat as Hn by lia.
clearbody n. destruct_or!; subst n; reflexivity.
Qed.

(** [COL_NAMES.index] and [COL_NAMES[...]] are inverse to each other. *)
Lemma col_index_Some (c1 : ascii) (col : nat) :
Board.col_index c1 = Some col ↔ Board.COL_NAMES !! col = Some c1.
Proof.
unfold Board.col_index, Board.COL_NAMES. split.
- intros H. apply fmap_Some in H as ([i x] & Hf & ->).
  apply list_find_Some in Hf as (Hl & -> & _). done.
- intros H.
  do 6 (destruct col as [|col]; [injection H as <-; reflexivity |]).
  done.
Qed.

Lemma col_cases (col : nat) (c1 : ascii) :
Board.COL_NAMES !! col = Some c1 →
(col = 0%nat ∧ c1 = "A"%char) ∨ (col = 1%nat ∧ c1 = "B"%char)
∨ (col = 2%nat ∧ c1 = "C"%char) ∨ (col = 3%nat ∧ c1 = "D"%char)
∨ (col = 4%nat ∧ c1 = "E"%char) ∨ (col = 5%nat ∧ c1 = "F"%char).
Proof.
intros H. do 6 (destruct col as [|col]; [injection H as <-; tauto |]). done.
Qed.

(** What a parsed identifier looks like: a digit, a column letter, and
    whatever follows. *)
Lemma position_parts (cell_id : string) (row : Z) (col : nat) :
Board.get_cell_position cell_id = Some (row, col) →
∃ c0 c1 rest, cell_id = String c0 (String c1 rest)
  ∧ -1 ≤ row ≤ 8 ∧ pretty (row + 1) = String c0 ""
  ∧ Board.COL_NAMES !! col = Some c1.
Proof.
intros H. destruct cell_id as [|c0 [|c1 rest]]; try done. simpl in H.
destruct (Board.int_of_char c0) as [d|] eqn:Hd; [| done]. simpl in H.
destruct (Board.col_index c1) as [col'|] eqn:Hc; [| done]. simpl in H.
injection H as <- <-.
apply digit_char in Hd as [Hd Hp]. apply col_index_Some in Hc.
exists c0, c1, rest. replace (d - 1 + 1) with d by lia.
repeat split; try done; lia.
Qed.

Ltac each_row row :=
  let Hr := fresh in
  assert (row = -1 ∨ row = 0 ∨ row = 1 ∨ row = 2 ∨ row = 3 ∨ row = 4 ∨ row = 5
          ∨ row = 6 ∨ row = 7 ∨ row = 8) as Hr by lia;
  destruct_or! Hr; subst row.

Ltac each_col H := apply col_cases in H; destruct_or! H; destruct H as [-> ->].

(** The cell in front is never the cell itself. *)
Lemma get_front_cell_ne (cell_id front : string) :
Board.get_front_cell cell_id = Some front → front ≠ cell_id.
Proof.
unfold Board.get_front_cell. intros H.
destruct (Board.get_cell_position cell_id) as [[row col]|] eqn:Hpos; [| done].
simpl in H.
apply position_parts in Hpos as (c0 & c1 & rest & -> & Hrow & Hp & Hc).
unfold Board.get_cell_id in H.
each_row row; each_col Hc; vm_compute in Hp; injection Hp as <-;
  vm_compute in H; injection H as <-; discriminate.
Qed.

(** X2: building an identifier and parsing it back is the identity on rows
  -1..8 (the rows whose number [row + 1] is one decimal digit) and the six
  columns: [get_cell_id] returns, and [get_cell_position] of what it
  returns is the pair it was given. *)
Theorem get_cell_position_get_cell_id (row : Z) (col : nat) :
-1 ≤ row ≤ 8 → (col < 6)%nat →
∃ cell_id, Board.get_cell_id row col = Some cell_id
           ∧ Board.get_cell_position cell_id = Some (row, col).
Proof.
intros Hrow Hcol.
do 6 (destruct col as [|col];
      [each_row row; eexists; split; reflexivity |]).
lia.
Qed.

Lemma get_cell_position_get_cell_id_witness :
∃ cell_id, Board.get_cell_id 2 4 = Some cell_id
           ∧ Board.get_cell_position cell_id = Some (2, 4%nat).
Proof. apply (get_cell_position_get_cell_id 2 4); lia. Defined.



(** X4: for an identifier that parses to [(row, col)], [get_front_cell]
  never raises: from row 0 it is ['public']; from rows 1..8 it is an
  identifier that parses to [(row - 1, col)]; from row -1 (an identifier
  starting with the digit 0) it is an identifier that does not parse. *)
Theorem get_front_cell_position (cell_id : string) (row : Z) (col : nat) :
Board.get_cell_position cell_id = Some (row, col) →
(row = 0 ∧ Board.get_front_cell cell_id = Some "public")
∨ (1 ≤ row ≤ 8
   ∧ ∃ front, Board.get_front_cell cell_id = Some front
              ∧ Board.get_cell_position front = Some (row - 1, col))
∨ (row = -1
   ∧ ∃ front, Board.get_front_cell cell_id = Some front
              ∧ Board.get_cell_position front = None).
Proof.
intros H. unfold Board.get_front_cell. rewrite H. simpl.
apply position_parts in H as (c0 & c1 & rest & -> & Hrow & _ & Hc).
unfold Board.get_cell_id.
each_row row; each_col Hc; simpl;
  first [ left; split; reflexivity
        | right; left; split; [lia | eexists; split; reflexivity]
        | right; right; split; [lia | eexists; split; reflexivity] ].
Qed.

Lemma get_front_cell_position_witness :
∃ front, Board.get_front_cell "3C" = Some front
         ∧ Board.get_cell_position front = Some (1, 2%nat).
Proof.
destruct (get_front_cell_position "3C" 2 2) as [[? _] | [[_ H] | [? _]]];
  [reflexivity | lia | exact H | lia].
Defined.

(** ** Counting pieces, the empty board, the numbers still to place *)

(** The count of a board, split at one cell. *)
Lemma board_count_delete (b : gmap string (option Z)) (c : string) :
Board.board_count b
= ((if decide (Board.occupied b c) then 1 else 0) + Board.board_count (delete c b))%nat.
Proof.
unfold Board.board_count. destruct (b !! c) as [v|] eqn:Hc.
- rewrite <- (map_to_list_delete b c v Hc) at 1. rewrite filter_cons. simpl.
  destruct v as [n|].
  + rewrite decide_True by done. rewrite decide_True by (by exists n). done.
  + rewrite decide_False by (by intros ?). 
    rewrite decide_False by (intros [n Hn]; congruence). done.
- rewrite delete_id by done.
  rewrite decide_False by (intros [n Hn]; congruence). done.
Qed.

Lemma board_count_insert (b : gmap string (option Z)) (c : string) (v : option Z) :
Board.board_count (<[c := v]> b)
= ((if v is Some _ then 1 else 0) + Board.board_count (delete c b))%nat.
Proof.
rewrite (board_count_delete _ c), delete_insert_eq. f_equal.
destruct v as [n|].
- rewrite decide_True; [done |]. exists n. apply lookup_insert_eq.
- rewrite decide_False; [done |]. intros [n Hn]. rewrite lookup_insert_eq in Hn. done.
Qed.

(** X5: how the piece count that [is_valid_board] and [check_winner] take
  changes under an assignment [board[c] = v]: writing a digit to a cell that
  holds none adds one, writing [None] to a cell that holds a digit removes
  one, and the two other assignments leave the count as it is. *)
Theorem board_count_update (b : gmap string (option Z)) (c : string) (n : Z) :
(¬ Board.occupied b c
 → Board.board_count (<[c := Some n]> b) = S (Board.board_count b)
   ∧ Board.board_count (<[c := None]> b) = Board.board_count b)
∧ (Board.occupied b c
   → Board.board_count (<[c := Some n]> b) = Board.board_count b
     ∧ S (Board.board_count (<[c := None]> b)) = Board.board_count b).
Proof.
rewrite !board_count_insert, (board_count_delete b c).
split; intros Hocc.
- rewrite decide_False by done. done.
- rewrite decide_True by done. done.
Qed.

(** The loop of [create_empty_board], cell by cell. *)
Lemma foldl_insert_None_lookup (l : list string) (m : gmap string (option Z)) (c : string) :
foldl (λ b c, <[c := None]> b) m l !! c
= if decide (c ∈ l) then Some None else m !! c.
Proof.
revert m. induction l as [|x l IH]; intros m.
- case_decide as Hin; [by apply elem_of_nil in Hin | done].
- change (foldl (λ b c, <[c := None]> b) (<[x := None]> m) l !! c
          = if decide (c ∈ x :: l) then Some None else m !! c).
  rewrite IH. destruct (decide (c ∈ l)) as [Hin|Hin].
  + rewrite decide_True; [done | by right].
  + destruct (decide (c = x)) as [->|Hne].
    * rewrite decide_True by left. apply lookup_insert_eq.
    * rewrite decide_False.
      -- by apply lookup_insert_ne.
      -- intros [->|?]%elem_of_cons; done.
Qed.

(** The digits [get_available_numbers] collects are those on the board. *)
Lemma elem_of_placed (b : gmap string (option Z)) (n : Z) :
n ∈ Board.placed b ↔ ∃ c, b !! c = Some (Some n).
Proof.
unfold Board.placed. rewrite elem_of_list_to_set, list_elem_of_omap. split.
- intros ([c v] & Hin & Hv). simpl in Hv. subst v.
  exists c. by apply elem_of_map_to_list.
- intros [c Hc]. exists (c, Some n). split; [by apply elem_of_map_to_list | done].
Qed.

Lemma StronglySorted_filter {A} (R : relation A) (P : A → Prop)
  `{∀ x, Decision (P x)} (l : list A) :
StronglySorted R l → StronglySorted R (filter P l).
Proof.
induction 1 as [|x l Hs IH Hall]; [constructor |].
rewrite filter_cons. case_decide; [| done].
constructor; [done |].
apply Forall_forall. intros y Hy. apply list_elem_of_filter in Hy as [_ Hy].
by eapply Forall_forall in Hall.
Qed.

(** X7: [get_available_numbers] returns exactly the numbers 0..9 that no
  cell of the board holds, in strictly increasing order (so each once). *)
Theorem get_available_numbers_spec (b : gmap string (option Z)) :
(∀ n, n ∈ Board.get_available_numbers b
      ↔ 0 ≤ n ≤ 9 ∧ ¬ ∃ c, b !! c = Some (Some n))
∧ StronglySorted Z.lt (Board.get_available_numbers b).
Proof.
unfold Board.get_available_numbers, Board.ALL_NUMBERS. split.
- intros n. rewrite list_elem_of_filter, elem_of_placed, elem_of_seqZ. 
  split; intros [? ?]; split; try done; lia.
- apply StronglySorted_filter.
  by vm_compute; repeat constructor.
Qed.

Lemma empty_board_not_occupied (c : string) :
¬ Board.occupied Board.create_empty_board c.
Proof.
intros [n Hn]. unfold Board.create_empty_board in Hn.
rewrite foldl_insert_None_lookup, lookup_empty in Hn. by case_decide.
Qed.

Lemma filter_all {A} (P : A → Prop) `{∀ x, Decision (P x)} (l : list A) :
(∀ x, x ∈ l → P x) → filter P l = l.
Proof.
induction l as [|x l IH]; intros Hall; [done |].
rewrite filter_cons, decide_True by (apply Hall; left).
f_equal. apply IH. intros y Hy. apply Hall. by right.
Qed.

(** X6: [create_empty_board] has exactly the keys of the 18 cells 1A..3F,
  each holding [None]; it is not a valid deployment, every number 0..9 is
  still available on it, and no cell of it can be moved forward (the answer
  is always [No piece at this position]). *)
Theorem create_empty_board_spec :
(∀ c, Board.create_empty_board !! c
      = if decide (c ∈ Board.cell_ids) then Some None else None)
∧ length Board.cell_ids = 18%nat ∧ NoDup Board.cell_ids
∧ Board.is_valid_board Board.create_empty_board = false
∧ Board.get_available_numbers Board.create_empty_board = Board.ALL_NUMBERS
∧ ∀ c, Board.can_move_forward Board.create_empty_board c
       = Some (false, "No piece at this position").
Proof.
split.
{ intros c. unfold Board.create_empty_board.
  by rewrite foldl_insert_None_lookup, lookup_empty. }
split; [reflexivity |].
split; [apply (bool_decide_unpack (NoDup Board.cell_ids)); by vm_compute |].
split.
{ apply bool_decide_eq_false. intros Hcount.
  destruct (proj1 (board_count_pos Board.create_empty_board)) as [c Hc];
    [rewrite Hcount; lia |].
  by apply empty_board_not_occupied in Hc. }
split.
{ apply filter_all. intros n _ Hn. apply elem_of_placed in Hn as [c Hc].
  apply (empty_board_not_occupied c). by exists n. }
intros c. apply no_piece_iff, empty_board_not_occupied.
Qed.

(** ** The sort key of the settlement *)

(** The dict comprehension, one more player at the end of the turn order. *)
Lemma order_map_snoc (l : list Z) (x : Z) :
order_map (l ++ [x]) = <[x := length l]> (order_map l).
Proof.
unfold order_map. rewrite imap_app, foldl_app. simpl. by rewrite Nat.add_0_r.
Qed.

(** The index [order_map] keeps for a player is that of the last occurrence. *)
Lemma order_map_lookup (l : list Z) (pid : Z) (i : nat) :
order_map l !! pid = Some i
↔ l !! i = Some pid ∧ ∀ j, (i < j)%nat → l !! j ≠ Some pid.
Proof.
revert i. induction l as [|x l IH] using rev_ind; intros i.
- unfold order_map. simpl. rewrite lookup_empty. split; [done | by intros [? _]].
- rewrite order_map_snoc. destruct (decide (pid = x)) as [->|Hne].
  + rewrite lookup_insert_eq. split.
    * intros [= <-]. split; [by apply list_lookup_middle |].
      intros j Hj Hx. apply lookup_lt_Some in Hx. rewrite length_app in Hx.
      simpl in Hx. lia.
    * intros [Hi Hlast]. f_equal.
      destruct (decide (i < length l)%nat) as [Hlt|Hge].
      -- exfalso. apply (Hlast (length l) Hlt). by apply list_lookup_middle.
      -- apply lookup_lt_Some in Hi. rewrite length_app in Hi. simpl in Hi. lia.
  + rewrite lookup_insert_ne by done. rewrite IH. split.
    * intros [Hi Hlast]. split; [by apply lookup_app_l_Some |].
      intros j Hj Hx. apply lookup_app_Some in Hx as [Hx | [_ Hx]].
      -- by apply (Hlast j).
      -- apply list_lookup_singleton_Some in Hx as [_ ?]. done.
    * intros [Hi Hlast].
      apply lookup_app_Some in Hi as [Hi | [_ Hi]].
      -- split; [done |]. intros j Hj Hx. apply (Hlast j Hj).
         by apply lookup_app_l_Some.
      -- apply list_lookup_singleton_Some in Hi as [_ ?]. done.
Qed.

Lemma order_map_None (l : list Z) (pid : Z) :
order_map l !! pid = None ↔ pid ∉ l.
Proof.
induction l as [|x l IH] using rev_ind.
- unfold order_map. simpl. rewrite lookup_empty. split; [intros _; apply not_elem_of_nil | done].
- rewrite order_map_snoc, lookup_insert_None, IH, not_elem_of_app.
  rewrite list_elem_of_singleton. split; intros [? ?]; split; try done; congruence.
Qed.

(** X8: the sort key of a piece is 999 when its owner is not in the turn
  order, and otherwise the index of the owner's last occurrence in it; in a
  turn order without repetitions it is the owner's index. *)
Theorem rank_spec (turn_order : list Z) (n pid : Z) :
(pid ∉ turn_order → rank turn_order (Piece n pid) = 999%nat)
∧ (∀ i, turn_order !! i = Some pid
        → (∀ j, (i < j)%nat → turn_order !! j ≠ Some pid)
        → rank turn_order (Piece n pid) = i)
∧ (NoDup turn_order
   → ∀ i, turn_order !! i = Some pid → rank turn_order (Piece n pid) = i).
Proof.
unfold rank. simpl.
assert (∀ i, turn_order !! i = Some pid
             → (∀ j, (i < j)%nat → turn_order !! j ≠ Some pid)
             → default 999%nat (order_map turn_order !! pid) = i) as Hlast.
{ intros i Hi Hl. by rewrite (proj2 (order_map_lookup turn_order pid i)). }
split; [| split; [exact Hlast |]].
- intros Hnot. by rewrite (proj2 (order_map_None turn_order pid)).
- intros Hnd i Hi. apply Hlast; [done |].
  intros j Hj Hx. pose proof (NoDup_lookup _ _ _ _ Hnd Hi Hx). lia.
Qed.

(** ** What the settlement does to the pieces *)

Ltac entries_in Hin :=
  let e := fresh "e" in let He := fresh "He" in
  intros e He; apply Hin;
  repeat (apply elem_of_cons in He as [-> | He]);
  [.. | by apply elem_of_nil in He];
  try case_decide; subst; rewrite !elem_of_cons; auto.

(** One pass of the loop: the new eliminated entries and the working set are
    made of pieces the pass found; between owners that differ no piece is
    lost or doubled. *)
Lemma duel_round_inv (turn_order : list Z) (area elim area' elim' : list piece)
  (d : piece * piece) :
duel_round turn_order area elim = Some (area', elim', d) →
∃ new, elim' = elim ++ new ∧ area' ⊆+ area ∧ (∀ e, e ∈ new → e ∈ area)
  ∧ (length area' + length new = length area)%nat
  ∧ (NoDup (player_id <$> area) → area' ++ new ≡ₚ area).
Proof.
unfold duel_round. intros H.
pose proof (sort_by_Permutation (rank turn_order) area) as Hperm.
destruct (sort_by (rank turn_order) area) as [|[n1 o1] [|[n2 o2] rest]]; try done.
simpl in H.
assert (∀ l, l ⊆+ Piece n1 o1 :: Piece n2 o2 :: rest → l ⊆+ area) as Hsub.
{ intros l Hl. by rewrite <- Hperm. }
assert (∀ e, e ∈ Piece n1 o1 :: Piece n2 o2 :: rest → e ∈ area) as Hin.
{ intros e He. by rewrite <- Hperm. }
assert (NoDup (player_id <$> area) → o1 ≠ o2) as Hne.
{ rewrite <- Hperm. simpl. intros Hnd ->.
  apply NoDup_cons in Hnd as [Hnot _]. apply Hnot. left. }
rewrite <- (Permutation_length Hperm).
destruct (duel_shape n1 o1 n2 o2) as [Hd | [Hd | Hd]]; rewrite Hd in H;
  injection H as <- <- <-; unfold eliminated_entries; simpl;
  eexists; (split; [reflexivity |]).
- rewrite (decide_True (P := o1 = o1)) by done. split; [apply Hsub; by do 2 apply submseteq_cons |].
  split.
  { entries_in Hin. }
  split; [simpl; lia |]. intros Hnd. rewrite <- Hperm.
  rewrite decide_False by (intros ->; by apply Hne).
  rewrite (Permutation_app_comm rest). reflexivity.
- rewrite (decide_True (P := o1 = o1)) by done. split.
  { apply Hsub. rewrite <- Permutation_cons_append. by apply submseteq_skip, submseteq_cons. }
  split.
  { entries_in Hin. }
  split; [rewrite length_app; simpl; lia |]. intros Hnd. rewrite <- Hperm.
  rewrite decide_False by (intros ->; by apply Hne).
  rewrite <- app_assoc. simpl. rewrite (Permutation_app_comm rest). reflexivity.
- rewrite (decide_True (P := o1 = o1)) by done. split.
  { apply Hsub. rewrite <- Permutation_cons_append.
    case_decide; [by apply submseteq_skip, submseteq_cons |].
    by apply submseteq_cons, submseteq_skip. }
  split.
  { entries_in Hin. }
  split; [rewrite length_app; simpl; lia |]. intros Hnd. rewrite <- Hperm.
  rewrite decide_False by (intros ->; by apply Hne).
  rewrite <- app_assoc. simpl. rewrite (Permutation_app_comm rest). simpl.
  apply Permutation_swap.
Qed.

Lemma NoDup_sub_multiset {A} (l k : list A) : l ⊆+ k → NoDup k → NoDup l.
Proof.
intros [k' Hk]%submseteq_Permutation Hnd. rewrite Hk in Hnd.
by apply NoDup_app in Hnd as [? _].
Qed.

Ltac loop_stops :=
  exists []; rewrite !app_nil_r; repeat split; try done;
  try (let He := fresh in intros ? He; by apply elem_of_nil in He);
  try (simpl; lia).

Lemma resolve_loop_inv (fuel : nat) (turn_order : list Z)
  (area elim : list piece) (duels : list (piece * piece))
  (area' elim' : list piece) (duels' : list (piece * piece)) :
resolve_loop fuel turn_order area elim duels = Some (area', elim', duels') →
∃ new, elim' = elim ++ new ∧ area' ⊆+ area ∧ (∀ e, e ∈ new → e ∈ area)
  ∧ (length area' + length new = length area)%nat
  ∧ (NoDup (player_id <$> area) → area' ++ new ≡ₚ area).
Proof.
revert area elim duels.
induction fuel as [|fuel IH]; intros area elim duels H; simpl in H.
- case_decide; [| done]. injection H as <- <- <-. loop_stops.
- case_decide; [injection H as <- <- <-; loop_stops |].
  destruct (duel_round turn_order area elim) as [[[area1 elim1] d]|] eqn:Hround;
    [| done].
  simpl in H.
  apply duel_round_inv in Hround as (new1 & -> & Hsub1 & Hin1 & Hlen1 & Hperm1).
  assert (∃ new, elim' = elim ++ new1 ++ new ∧ area' ⊆+ area1
            ∧ (∀ e, e ∈ new → e ∈ area1)
            ∧ (length area' + length new = length area1)%nat
            ∧ (NoDup (player_id <$> area1) → area' ++ new ≡ₚ area1))
    as (new2 & -> & Hsub2 & Hin2 & Hlen2 & Hperm2).
  { repeat case_decide.
    - injection H as <- <- <-. loop_stops.
    - injection H as <- <- <-. loop_stops.
    - apply IH in H as (new2 & -> & ?). exists new2. by rewrite <- app_assoc. }
  exists (new1 ++ new2). split; [done |].
  split; [by etrans |]. split.
  { intros e [He | He]%elem_of_app; [by apply Hin1 |].
    eapply elem_of_submseteq; [by apply Hin2 | done]. }
  split; [rewrite length_app; lia |].
  intros Hnd. rewrite <- (Hperm1 Hnd).
  rewrite <- Hperm2.
  + rewrite <- !app_assoc. f_equiv. apply Permutation_app_comm.
  + eapply NoDup_sub_multiset; [| exact Hnd]. by apply fmap_submseteq.
Qed.

(** X9: the settlement always returns, and it invents no piece: the leftover
  public area is a sub-multiset of the public area it was given, every
  eliminated entry is a piece of that public area, and unless the public
  area held exactly one piece the leftover and the eliminated entries
  together are as many as the pieces given. *)
Theorem settlement_pieces (public_area : list piece) (turn_order : list Z) :
∃ area elim extra,
  resolve_public_area public_area turn_order = Some (area, elim, extra)
  ∧ area ⊆+ public_area
  ∧ (∀ e, e ∈ elim → e ∈ public_area)
  ∧ (length public_area ≠ 1%nat
     → (length area + length elim = length public_area)%nat).
Proof.
unfold resolve_public_area, resolve_with_duels.
destruct public_area as [|p [|q l]].
- exists [], [], None. by repeat split.
- exists [], [], (Some (player_id p)). split; [done |].
  split; [apply submseteq_nil_l |]. split; [| done].
  intros e He. by apply elem_of_nil in He.
- destruct (resolve_loop_returns (length (p :: q :: l)) turn_order (p :: q :: l) [] [])
    as (area & elim & duels & Heq & _); [lia |].
  rewrite Heq. simpl.
  apply resolve_loop_inv in Heq as (new & -> & Hsub & Hin & Hlen & _).
  exists area, new, None. repeat split; try done.
Qed.

(** X10: when no two pieces of the public area have the same owner (and
  there is not exactly one piece), every piece ends either left over or
  eliminated, exactly once, at most one piece is left over, and no
  extra-action player is reported. *)
Theorem settlement_distinct_owners (public_area : list piece) (turn_order : list Z) :
NoDup (player_id <$> public_area) → length public_area ≠ 1%nat →
∃ area elim,
  resolve_public_area public_area turn_order = Some (area, elim, None)
  ∧ area ++ elim ≡ₚ public_area
  ∧ (length area ≤ 1)%nat.
Proof.
intros Hnd Hlen. unfold resolve_public_area, resolve_with_duels.
destruct public_area as [|p [|q l]]; [| done |].
{ exists [], []. split; [done |]. split; [done | simpl; lia]. }
destruct (resolve_loop_returns (length (p :: q :: l)) turn_order (p :: q :: l) [] [])
  as (area & elim & duels & Heq & Hsingle); [lia |].
rewrite Heq. simpl.
apply resolve_loop_inv in Heq as (new & -> & Hsub & _ & _ & Hperm).
exists area, new. split; [done |]. split; [by apply Hperm |].
assert (NoDup (player_id <$> area)) as Hnd'.
{ eapply NoDup_sub_multiset; [| exact Hnd]. by apply fmap_submseteq. }
destruct area as [|x [|y area]]; simpl; try lia.
exfalso. simpl in Hnd'. apply NoDup_cons in Hnd' as [Hnot _]. apply Hnot.
rewrite (Hsingle x y); [left | left | right; left].
Qed.

Lemma settlement_distinct_owners_witness :
∃ area elim,
  resolve_public_area [Piece 0 3; Piece 9 2; Piece 4 1] [1; 2; 3]
  = Some (area, elim, None)
  ∧ area ++ elim ≡ₚ [Piece 0 3; Piece 9 2; Piece 4 1]
  ∧ (length area ≤ 1)%nat.
Proof.
apply (settlement_distinct_owners [Piece 0 3; Piece 9 2; Piece 4 1] [1; 2; 3]).
- apply (bool_decide_unpack (NoDup _)). by vm_compute.
- simpl. lia.
Defined.

(** ** Turns and rounds over several requests *)




(** ** The forward action *)

Lemma board_count_place (b : gmap string (option Z)) (c : string) (n : Z) :
¬ Board.occupied b c → Board.board_count (<[c := Some n]> b) = S (Board.board_count b).
Proof.
intros Hocc. rewrite board_count_insert, (board_count_delete b c).
by rewrite decide_False.
Qed.

Lemma board_count_clear (b : gmap string (option Z)) (c : string) :
Board.occupied b c → S (Board.board_count (<[c := None]> b)) = Board.board_count b.
Proof.
intros Hocc. rewrite board_count_insert, (board_count_delete b c).
by rewrite decide_True.
Qed.

Lemma occupied_insert_ne (b : gmap string (option Z)) (c c' : string) (v : option Z) :
c ≠ c' → Board.occupied (<[c := v]> b) c' ↔ Board.occupied b c'.
Proof. intros Hne. unfold Board.occupied. by rewrite lookup_insert_ne. Qed.

(** X12: when the forward branch applies a move, the cell held a digit and
  has a front cell; either the front is the public area, and then the cell
  is cleared and the piece is appended to the public area under the mover's
  id, or the front is a cell that held no piece, and then the digit moves
  there and the public area is untouched.  In both cases the pieces on the
  board and in the public area together are as many as before. *)
Theorem forward_action_applied (b : gmap string (option Z)) (area : list piece)
  (user_id : Z) (cell_id : string) (b' : gmap string (option Z)) (area' : list piece) :
forward_action b area user_id cell_id = Applied (b', area') →
∃ n front,
  b !! cell_id = Some (Some n) ∧ Board.get_front_cell cell_id = Some front
  ∧ ((front = "public" ∧ b' = <[cell_id := None]> b
      ∧ area' = area ++ [Piece n user_id]
      ∧ S (Board.board_count b') = Board.board_count b)
     ∨ (front ≠ "public" ∧ ¬ Board.occupied b front
        ∧ b' = <[front := Some n]> (<[cell_id := None]> b)
        ∧ area' = area
        ∧ Board.board_count b' = Board.board_count b))
  ∧ (Board.board_count b' + length area' = Board.board_count b + length area)%nat.
Proof.
unfold forward_action, Board.can_move_forward. intros H.
destruct (decide (Board.occupied b cell_id)) as [[n Hn] | Hno]; [| done].
destruct (Board.get_front_cell cell_id) as [front|] eqn:Hfront; [| done].
simpl in H. exists n, front. split; [done |]. split; [done |].
assert (Board.occupied b cell_id) as Hocc by (by exists n).
destruct (decide (front = "public")) as [Hpub | Hpub]; simpl in H.
- rewrite Hn in H. simpl in H. rewrite decide_True in H by done.
  injection H as <- <-.
  pose proof (board_count_clear b cell_id Hocc) as Hc.
  split; [left; done |]. rewrite length_app. simpl. lia.
- destruct (decide (Board.occupied b front)) as [Hf | Hf]; simpl in H; [done |].
  rewrite Hn in H. simpl in H. rewrite decide_False in H by done.
  injection H as <- <-.
  pose proof (board_count_clear b cell_id Hocc) as Hc.
  assert (Board.board_count (<[front := Some n]> (<[cell_id := None]> b))
          = S (Board.board_count (<[cell_id := None]> b))) as Hp.
  { apply board_count_place. rewrite occupied_insert_ne; [done |].
    intros ->. by apply get_front_cell_ne in Hfront. }
  split; [right; repeat split; try done; lia | lia].
Qed.

Lemma forward_action_applied_witness :
∃ n front,
  (<["2B" := Some 3]> ∅ : gmap string (option Z)) !! "2B" = Some (Some n)
  ∧ Board.get_front_cell "2B" = Some front.
Proof.
destruct (forward_action_applied (<["2B" := Some 3]> ∅) [] 7 "2B"
            (<["1B" := Some 3]> (<["2B" := None]> (<["2B" := Some 3]> ∅))) [])
  as (n & front & Hn & Hf & _).
- reflexivity.
- by exists n, front.
Defined.

(** X13: the forward branch raises exactly when the cell holds a digit but
  its identifier cannot be parsed, which no cell id of the 3x6 grid does; it
  is rejected, always with code 400, exactly when the cell holds no digit
  ([No piece at this position]) or its front cell is a board cell that
  holds a digit ([Target cell is occupied]). *)
Theorem forward_action_errors (b : gmap string (option Z)) (area : list piece)
  (user_id : Z) (cell_id : string) :
(forward_action b area user_id cell_id = Raised
 ↔ Board.occupied b cell_id ∧ Board.get_front_cell cell_id = None)
∧ (∀ error code,
     forward_action b area user_id cell_id = Rejected error code
     ↔ code = 400
       ∧ ((¬ Board.occupied b cell_id ∧ error = "No piece at this position")
          ∨ (Board.occupied b cell_id
             ∧ error = "Target cell is occupied"
             ∧ ∃ front, Board.get_front_cell cell_id = Some front
                        ∧ front ≠ "public" ∧ Board.occupied b front)))
∧ (cell_id ∈ Board.cell_ids → forward_action b area user_id cell_id ≠ Raised).
Proof.
assert (forward_action b area user_id cell_id = Raised
        ↔ Board.occupied b cell_id ∧ Board.get_front_cell cell_id = None) as Hraised.
{ unfold forward_action, Board.can_move_forward.
  destruct (decide (Board.occupied b cell_id)) as [[n Hn] | Hno]; simpl.
  - destruct (Board.get_front_cell cell_id) as [front|]; simpl.
    + split; [| by intros [_ ?]].
      destruct (decide (front = "public")); simpl.
      * rewrite Hn. simpl. by rewrite decide_True.
      * destruct (decide (Board.occupied b front)); simpl; [done |].
        rewrite Hn. simpl. by rewrite decide_False.
    + split; [intros _; split; [by exists n | done] | done].
  - split; [done | by intros [? _]]. }
split; [exact Hraised |]. split.
- intros error code. unfold forward_action, Board.can_move_forward.
  destruct (decide (Board.occupied b cell_id)) as [[n Hn] | Hno]; simpl.
  + assert (Board.occupied b cell_id) as Hocc by (by exists n).
    destruct (Board.get_front_cell cell_id) as [front|]; simpl.
    * destruct (decide (front = "public")) as [Hpub|Hpub]; simpl.
      -- rewrite Hn. simpl. rewrite decide_True by done.
         split; [done |]. intros [_ [[? _] | (_ & _ & f & [= <-] & ? & _)]]; done.
      -- destruct (decide (Board.occupied b front)) as [Hf|Hf]; simpl.
         ++ split.
            ** intros [= <- <-]. split; [done |]. right. eauto 10.
            ** intros [-> [[? _] | (_ & -> & _)]]; done.
         ++ rewrite Hn. simpl. rewrite decide_False by done.
            split; [done |].
            intros [_ [[? _] | (_ & _ & f & [= <-] & _ & ?)]]; done.
    * split; [done |]. intros [_ [[? _] | (_ & _ & f & ? & _)]]; done.
  + split.
    * intros [= <- <-]. split; [done |]. by left.
    * intros [-> [[_ ->] | (? & _)]]; done.
- intros Hcell Hr. apply Hraised in Hr as [_ Hr].
  unfold Board.cell_ids in Hcell. vm_compute in Hcell.
  repeat (apply elem_of_cons in Hcell as [-> | Hcell]; [vm_compute in Hr; done |]).
  by apply elem_of_nil in Hcell.
Qed.

(** ** The recycle action *)

(** The caller's pieces, each with its position in the public area. *)
Lemma elem_of_player_pieces (area : list piece) (user_id : Z) (i : nat) (p : piece) :
(i, p) ∈ player_pieces area user_id ↔ area !! i = Some p ∧ player_id p = user_id.
Proof.
unfold player_pieces. rewrite list_elem_of_filter. simpl.
rewrite elem_of_lookup_imap. split.
- intros [Hp (j & q & [= -> ->] & Hj)]. done.
- intros [Hi Hp]. split; [done |]. by exists i, p.
Qed.

Lemma filter_delete {A} (P : A → Prop) `{∀ x, Decision (P x)} (l : list A)
  (i : nat) (x : A) :
l !! i = Some x → ¬ P x → filter P (delete i l) = filter P l.
Proof.
revert i. induction l as [|y l IH]; intros i Hi Hx; [done |].
destruct i as [|i]; simpl in *.
- injection Hi as ->. by rewrite filter_cons, decide_False.
- rewrite !filter_cons. by rewrite (IH i).
Qed.

(** X14: when the recycle branch applies, one piece of the caller has left
  the public area and its digit stands on the target cell, which was in the
  board and empty: the board has one piece more, the public area one piece
  less, and the pieces of every other owner are in the public area exactly
  as before, in the same order. *)
Theorem recycle_action_applied (b : gmap string (option Z)) (area : list piece)
  (user_id piece_idx : Z) (target_cell : string)
  (b' : gmap string (option Z)) (area' : list piece) :
recycle_action b area user_id piece_idx target_cell = Applied (b', area') →
∃ i p,
  area !! i = Some p ∧ player_id p = user_id ∧ b !! target_cell = Some None
  ∧ b' = <[target_cell := Some (number p)]> b ∧ area' = delete i area
  ∧ Board.board_count b' = S (Board.board_count b)
  ∧ length area = S (length area')
  ∧ filter (λ q, player_id q ≠ user_id) area'
    = filter (λ q, player_id q ≠ user_id) area.
Proof.
unfold recycle_action. intros H.
repeat (case_decide; [done |]).
destruct (py_index (player_pieces area user_id) piece_idx) as [[i p]|] eqn:Hpick;
  [| done].
simpl in H. case_decide as Htarget; [| done]. injection H as <- <-.
assert ((i, p) ∈ player_pieces area user_id) as Hin.
{ unfold py_index in Hpick. repeat case_decide; try done;
    by eapply list_elem_of_lookup_2. }
apply elem_of_player_pieces in Hin as [Hi Hp].
exists i, p. repeat split; try done.
- apply board_count_place. intros [n Hn]. congruence.
- rewrite length_delete by eauto. apply lookup_lt_Some in Hi. lia.
- apply (filter_delete _ _ _ p); [done |]. intros Hne. by apply Hne.
Qed.

Lemma recycle_action_applied_witness :
∃ i p, [Piece 5 1; Piece 3 2; Piece 8 2] !! i = Some p ∧ player_id p = 2.
Proof.
destruct (recycle_action_applied (<["3A" := None]> ∅)
            [Piece 5 1; Piece 3 2; Piece 8 2] 2 1 "3A"
            (<["3A" := Some 8]> (<["3A" := None]> ∅)) [Piece 5 1; Piece 3 2])
  as (i & p & Hi & Hp & _).
- reflexivity.
- by exists i, p.
Defined.

(** X15: with the caller owning [k] pieces (at least one) in the public area
  and an empty target cell, [piece_index >= k] is rejected with [Invalid
  piece index]; an index from [-k] to [k - 1] is accepted and selects the
  caller's piece number [piece_index mod k], so that a negative index counts
  from the caller's last piece; an index below [-k] raises. *)
Theorem recycle_action_index (b : gmap string (option Z)) (area : list piece)
  (user_id piece_idx : Z) (target_cell : string) :
b !! target_cell = Some None → player_pieces area user_id ≠ [] →
let pieces := player_pieces area user_id in
let k := Z.of_nat (length pieces) in
(k ≤ piece_idx
 → recycle_action b area user_id piece_idx target_cell
   = Rejected "Invalid piece index" 400)
∧ (piece_idx < - k
   → recycle_action b area user_id piece_idx target_cell = Raised)
∧ (- k ≤ piece_idx < k
   → ∃ i p, pieces !! Z.to_nat (piece_idx `mod` k) = Some (i, p)
            ∧ recycle_action b area user_id piece_idx target_cell
              = Applied (<[target_cell := Some (number p)]> b, delete i area)).
Proof.
intros Htarget Hsome pieces k. unfold recycle_action.
assert (length area ≠ 0%nat) as Harea.
{ intros Hlen. apply Hsome. destruct area; [done | simpl in Hlen; lia]. }
rewrite (decide_False (P := length area = 0%nat)) by done.
rewrite (decide_False (P := player_pieces area user_id = [])) by done.
fold pieces. fold k.
assert (0 < k) as Hk.
{ subst k pieces. destruct (player_pieces area user_id); [done | simpl; lia]. }
split; [| split].
- intros Hge. by rewrite decide_True.
- intros Hlt. rewrite decide_False by lia. unfold py_index. fold k.
  rewrite decide_False by lia. rewrite decide_False by lia. done.
- intros Hin. rewrite decide_False by lia. unfold py_index. fold k.
  destruct (decide (0 ≤ piece_idx)) as [Hpos | Hneg].
  + rewrite Z.mod_small by lia.
    destruct (lookup_lt_is_Some_2 pieces (Z.to_nat piece_idx)) as [[i p] Hp];
      [subst k; lia |].
    exists i, p. split; [done |]. rewrite Hp. simpl. by rewrite decide_True.
  + rewrite decide_True by lia.
    replace (piece_idx `mod` k) with (piece_idx + k).
    2:{ symmetry. replace piece_idx with (piece_idx + k + (-1) * k) at 1 by lia.
        rewrite Z.mod_add by lia. apply Z.mod_small. lia. }
    destruct (lookup_lt_is_Some_2 pieces (Z.to_nat (piece_idx + k))) as [[i p] Hp];
      [subst k; lia |].
    exists i, p. split; [done |]. rewrite Hp. simpl. by rewrite decide_True.
Qed.

Lemma recycle_action_index_witness :
∃ i p, player_pieces [Piece 5 1; Piece 3 2; Piece 8 2] 2
         !! Z.to_nat ((-1) `mod` 2) = Some (i, p)
       ∧ recycle_action (<["3A" := None]> ∅) [Piece 5 1; Piece 3 2; Piece 8 2] 2 (-1) "3A"
         = Applied (<["3A" := Some (number p)]> (<["3A" := None]> ∅),
                    delete i [Piece 5 1; Piece 3 2; Piece 8 2]).
Proof.
destruct (recycle_action_index (<["3A" := None]> ∅)
            [Piece 5 1; Piece 3 2; Piece 8 2] 2 (-1) "3A") as (_ & _ & H).
- reflexivity.
- discriminate.
- apply H. simpl. lia.
Defined.

(** ** Handing leftover pieces back at the end of a round *)

(** The back-row cell of a column, [f"3{col}"]. *)
Definition back_cell (col : ascii) : string := "3" +:+ String col "".

Lemma place_in_back_row_full (cols : list ascii) (b : gmap string (option Z)) (n : Z) :
(∀ col, col ∈ cols → Board.occupied b (back_cell col)) →
place_in_back_row cols b n = b.
Proof.
induction cols as [|col cols IH]; intros Hall; [done |].
cbn [place_in_back_row]. fold (back_cell col).
rewrite decide_True by (apply Hall; left).
apply IH. intros col' Hin. apply Hall. by right.
Qed.

Lemma place_in_back_row_first (cols : list ascii) (b : gmap string (option Z))
  (n : Z) (i : nat) (col : ascii) :
cols !! i = Some col → ¬ Board.occupied b (back_cell col) →
(∀ j col', (j < i)%nat → cols !! j = Some col' → Board.occupied b (back_cell col')) →
place_in_back_row cols b n = <[back_cell col := Some n]> b.
Proof.
revert i. induction cols as [|c cols IH]; intros i Hi Hfree Hbefore; [done |].
cbn [place_in_back_row]. fold (back_cell c).
destruct i as [|i]; simpl in Hi.
- injection Hi as ->. by rewrite decide_False.
- rewrite decide_True by (apply (Hbefore 0%nat); [lia | done]).
  apply (IH i); [done | done |].
  intros j col' Hj Hc. apply (Hbefore (S j)); [lia | done].
Qed.

(** X16: a leftover piece is put on the first of the cells 3A, 3B, ..., 3F
  that holds no digit (a missing key counts as free), which adds one piece
  to the board; when all six hold a digit the board is left as it is, so the
  piece is placed nowhere. *)
Theorem place_in_back_row_spec (b : gmap string (option Z)) (n : Z) :
let back := ["3A"; "3B"; "3C"; "3D"; "3E"; "3F"] in
((∀ c, c ∈ back → Board.occupied b c)
 → place_in_back_row Board.COL_NAMES b n = b)
∧ (∀ i c, back !! i = Some c → ¬ Board.occupied b c
          → (∀ j c', (j < i)%nat → back !! j = Some c' → Board.occupied b c')
          → place_in_back_row Board.COL_NAMES b n = <[c := Some n]> b
            ∧ Board.board_count (place_in_back_row Board.COL_NAMES b n)
              = S (Board.board_count b)).
Proof.
intros back.
assert (back = back_cell <$> Board.COL_NAMES) as Hback by reflexivity.
split.
- intros Hall. apply place_in_back_row_full. intros col Hcol.
  apply Hall. rewrite Hback. by apply list_elem_of_fmap_2.
- intros i c Hi Hfree Hbefore. rewrite Hback in Hi.
  apply list_lookup_fmap_Some in Hi as (col & -> & Hcol).
  assert (place_in_back_row Board.COL_NAMES b n = <[back_cell col := Some n]> b)
    as ->.
  { apply (place_in_back_row_first _ _ _ i); [done | done |].
    intros j col' Hj Hc. apply (Hbefore j); [done |].
    rewrite Hback, list_lookup_fmap, Hc. done. }
  split; [done | by apply board_count_place].
Qed.

(** ** The rows written at the end of a round *)

(** A loop that writes, for each entry, a row computed from the row of the
    entry's owner in [players]: the shape of both round-end loops. *)
Definition write_rows {E} (owner : E → Z) (row_of : player_data → E → player_data)
    (players db : players_table) (l : list E) : players_table :=
  foldl (λ db e,
           match players !! owner e with
           | Some r => alter (λ _, row_of r e) (owner e) db
           | None => db
           end) db l.

Lemma write_rows_other {E} (owner : E → Z) row_of players db (l : list E) (uid : Z) :
(∀ e, e ∈ l → owner e ≠ uid) →
write_rows owner row_of players db l !! uid = db !! uid.
Proof.
unfold write_rows. revert db.
induction l as [|e l IH]; intros db Hall; [done |]. simpl.
rewrite IH by (intros e' He'; apply Hall; by right).
destruct (players !! owner e); [| done].
apply lookup_alter_ne. apply Hall. left.
Qed.

Lemma write_rows_is_Some {E} (owner : E → Z) row_of players db (l : list E) (uid : Z) :
is_Some (write_rows owner row_of players db l !! uid) ↔ is_Some (db !! uid).
Proof.
unfold write_rows. revert db.
induction l as [|e l IH]; intros db; [done |]. simpl.
rewrite IH. destruct (players !! owner e); [| done].
apply lookup_alter_is_Some.
Qed.

Lemma write_rows_absent {E} (owner : E → Z) row_of players db (l : list E) (uid : Z) :
players !! uid = None →
write_rows owner row_of players db l !! uid = db !! uid.
Proof.
intros Hnone. unfold write_rows. revert db.
induction l as [|e l IH]; intros db; [done |]. simpl.
rewrite IH. destruct (players !! owner e) as [r|] eqn:Hr; [| done].
apply lookup_alter_ne. intros Heq. congruence.
Qed.

Lemma write_rows_last {E} (owner : E → Z) row_of players db
  (pre : list E) (e : E) (post : list E) (r : player_data) :
players !! owner e = Some r → is_Some (db !! owner e) →
(∀ e', e' ∈ post → owner e' ≠ owner e) →
write_rows owner row_of players db (pre ++ e :: post) !! owner e
= Some (row_of r e).
Proof.
intros Hr Hdb Hpost.
change (write_rows owner row_of players db (pre ++ e :: post))
  with (foldl (λ db e,
           match players !! owner e with
           | Some r => alter (λ _, row_of r e) (owner e) db
           | None => db
           end) db (pre ++ e :: post)).
rewrite foldl_app. simpl. rewrite Hr.
fold (write_rows owner row_of players db pre).
match goal with
| |- foldl ?f ?m post !! _ = _ =>
    change (foldl f m post) with (write_rows owner row_of players m post)
end.
rewrite write_rows_other by done.
etrans; [apply lookup_alter_eq |].
apply (write_rows_is_Some owner row_of players db pre) in Hdb as [x Hx].
unfold players_table in *. by rewrite Hx.
Qed.

Lemma record_eliminated_write_rows players db elim :
record_eliminated players db elim
= write_rows player_id
    (λ r e, PlayerData (board r) (eliminated r ++ [number e])) players db elim.
Proof. reflexivity. Qed.

Lemma return_leftovers_write_rows players db area :
return_leftovers players db area
= write_rows player_id
    (λ r p, PlayerData (place_in_back_row Board.COL_NAMES (board r) (number p))
              (eliminated r)) players db area.
Proof. reflexivity. Qed.

(** X17: the loop that records eliminations leaves the row of a player
  without entries, or without a row in [players], as it is in the database,
  and creates no row; for a player with entries it writes the board and the
  eliminated list that [players] holds, extended by the number of the
  player's last entry only: earlier entries of the same player in the same
  settlement are not recorded. *)
Theorem record_eliminated_spec (players db : players_table) (elim : list piece)
  (uid : Z) :
((∀ e, e ∈ elim → player_id e ≠ uid)
 → record_eliminated players db elim !! uid = db !! uid)
∧ (players !! uid = None → record_eliminated players db elim !! uid = db !! uid)
∧ (db !! uid = None → record_eliminated players db elim !! uid = None)
∧ (∀ pre e post r,
     elim = pre ++ e :: post → player_id e = uid
     → (∀ e', e' ∈ post → player_id e' ≠ uid)
     → players !! uid = Some r → is_Some (db !! uid)
     → record_eliminated players db elim !! uid
       = Some (PlayerData (board r) (eliminated r ++ [number e]))).
Proof.
rewrite record_eliminated_write_rows.
split; [apply write_rows_other |]. split; [apply write_rows_absent |]. split.
- intros Hnone. apply eq_None_not_Some. rewrite write_rows_is_Some.
  by apply eq_None_not_Some.
- intros pre e post r -> <- Hpost Hr Hdb.
  by apply (write_rows_last player_id
              (λ r e, PlayerData (board r) (eliminated r ++ [number e]))).
Qed.

(** X18: the loop that returns leftover pieces leaves the row of a player
  without leftover pieces as it is in the database; for an owner of leftover
  pieces it writes the board that [players] holds with the owner's last
  leftover piece placed in the back row, and the eliminated list that
  [players] holds: earlier leftover pieces of the owner are placed nowhere,
  and what was recorded for the owner since [players] was fetched is
  overwritten. *)
Theorem return_leftovers_spec (players db : players_table) (area : list piece)
  (uid : Z) :
((∀ p, p ∈ area → player_id p ≠ uid)
 → return_leftovers players db area !! uid = db !! uid)
∧ (∀ pre p post r,
     area = pre ++ p :: post → player_id p = uid
     → (∀ q, q ∈ post → player_id q ≠ uid)
     → players !! uid = Some r → is_Some (db !! uid)
     → return_leftovers players db area !! uid
       = Some (PlayerData
                 (place_in_back_row Board.COL_NAMES (board r) (number p))
                 (eliminated r))).
Proof.
rewrite return_leftovers_write_rows.
split; [apply write_rows_other |].
intros pre p post r -> <- Hpost Hr Hdb.
by apply (write_rows_last player_id
            (λ r p, PlayerData
                      (place_in_back_row Board.COL_NAMES (board r) (number p))
                      (eliminated r))).
Qed.

(** ** The settlement phase and the challenge action *)

Lemma resolve_public_area_returns (public_area : list piece) (turn_order : list Z) :
∃ left elim extra,
  resolve_public_area public_area turn_order = Some (left, elim, extra)
  ∧ single_owner left
  ∧ (public_area = [] → left = [] ∧ elim = [])
  ∧ (∀ p, public_area = [p] → left = [] ∧ elim = []).
Proof.
destruct (resolve_with_duels_returns public_area turn_order)
  as (left & elim & extra & duels & Heq & Hsingle & _).
exists left, elim, extra. unfold resolve_public_area. rewrite Heq.
split; [done |]. split; [done |]. split.
- intros ->. by injection Heq as <- <- _ _.
- intros p ->. by injection Heq as <- <- _ _.
Qed.

(** X19: the settlement phase at the end of a round always completes, and
  the winner it looks for is [check_winner] of the rows it leaves.  What is
  left over has one owner.  For a player with a row: the owner of the
  leftover pieces ends with the board fetched at the start of the request
  plus the last leftover piece in the back row, and the eliminated list
  fetched at the start of the request; a player without leftover pieces but
  with eliminated pieces ends with the fetched board and the fetched
  eliminated list extended by the last eliminated number; any other row is
  untouched. *)
Theorem settlement_phase_rows (players db : players_table) (area : list piece)
  (turn_order : list Z) :
∃ left elim extra db',
  resolve_public_area area turn_order = Some (left, elim, extra)
  ∧ settlement_phase players db area turn_order = Applied (db', check_winner db')
  ∧ single_owner left
  ∧ ∀ uid r, players !! uid = Some r → is_Some (db !! uid) →
      (∀ p, last left = Some p → player_id p = uid
            → db' !! uid
              = Some (PlayerData
                        (place_in_back_row Board.COL_NAMES (board r) (number p))
                        (eliminated r)))
      ∧ ((∀ p, p ∈ left → player_id p ≠ uid)
         → (∀ pre e post,
              elim = pre ++ e :: post → player_id e = uid
              → (∀ e', e' ∈ post → player_id e' ≠ uid)
              → db' !! uid
                = Some (PlayerData (board r) (eliminated r ++ [number e])))
           ∧ ((∀ e, e ∈ elim → player_id e ≠ uid) → db' !! uid = db !! uid)).
Proof.
destruct (resolve_public_area_returns area turn_order)
  as (left & elim & extra & Heq & Hsingle & _).
exists left, elim, extra,
  (return_leftovers players (record_eliminated players db elim) left).
split; [done |]. split.
{ unfold settlement_phase. rewrite Heq. done. }
split; [done |].
intros uid r Hr Hdb.
assert (is_Some (record_eliminated players db elim !! uid)) as Hdb1.
{ rewrite record_eliminated_write_rows. by apply write_rows_is_Some. }
split.
- intros p Hlast <-. apply last_Some in Hlast as [pre ->].
  rewrite return_leftovers_write_rows.
  apply (write_rows_last player_id
           (λ r p, PlayerData
                     (place_in_back_row Board.COL_NAMES (board r) (number p))
                     (eliminated r))); [done | done |].
  intros e' He'. by apply elem_of_nil in He'.
- intros Hleft.
  rewrite return_leftovers_write_rows, write_rows_other by done.
  rewrite record_eliminated_write_rows. split.
  + intros pre e post -> <- Hpost.
    by apply (write_rows_last player_id
                (λ r e, PlayerData (board r) (eliminated r ++ [number e]))).
  + intros Helim. by apply write_rows_other.
Qed.

(** X20: the challenge branch never raises.  It is rejected when the target
  has no row (404) or the target cell holds no digit (400).  Otherwise the
  target's piece joins the public area, which is settled at once and its
  leftover stored; the target's row ends with the cell cleared and the
  eliminated list fetched at the start of the request, whatever the
  settlement eliminated of the target's; other rows are as the recording of
  the eliminations left them.  Against an empty public area the piece is
  neither left over nor eliminated. *)
Theorem challenge_action_spec (players db : players_table) (area : list piece)
  (turn_order : list Z) (target_id : Z) (target_cell : string) :
(players !! target_id = None
 → challenge_action players db area turn_order target_id target_cell
   = Rejected "Target player not found" 404)
∧ (∀ r, players !! target_id = Some r → ¬ Board.occupied (board r) target_cell
        → challenge_action players db area turn_order target_id target_cell
          = Rejected "Invalid target cell" 400)
∧ (∀ r n, players !! target_id = Some r → board r !! target_cell = Some (Some n)
     → ∃ left elim extra db',
         resolve_public_area (area ++ [Piece n target_id]) turn_order
         = Some (left, elim, extra)
         ∧ challenge_action players db area turn_order target_id target_cell
           = Applied (db', left)
         ∧ (is_Some (db !! target_id)
            → db' !! target_id
              = Some (PlayerData (<[target_cell := None]> (board r)) (eliminated r)))
         ∧ (∀ uid, uid ≠ target_id
                   → db' !! uid = record_eliminated players db elim !! uid)
         ∧ (area = [] → left = [] ∧ elim = [])).
Proof.
unfold challenge_action. split; [by intros -> |]. split.
- intros r -> Hfree.
  destruct (board r !! target_cell) as [[n|]|] eqn:Hc; try done.
  exfalso. apply Hfree. by exists n.
- intros r n -> ->.
  destruct (resolve_public_area_returns (area ++ [Piece n target_id]) turn_order)
    as (left & elim & extra & Heq & _ & _ & Hone).
  exists left, elim, extra,
    (update_player_board (record_eliminated players db elim) target_id
       (<[target_cell := None]> (board r)) (eliminated r)).
  split; [done |]. split; [by rewrite Heq |]. split; [| split].
  + intros Hdb. unfold update_player_board.
    etrans; [apply lookup_alter_eq |].
    assert (is_Some (record_eliminated players db elim !! target_id)) as [x Hx].
    { rewrite record_eliminated_write_rows. by apply write_rows_is_Some. }
    unfold players_table in *. by rewrite Hx.
  + intros uid Hne. unfold update_player_board. by apply lookup_alter_ne.
  + intros ->. by apply (Hone (Piece n target_id)).
Qed.

(** ** The request handler as a whole *)

Lemma settlement_phase_applied (players db : players_table) (area : list piece)
  (turn_order : list Z) :
∃ db', settlement_phase players db area turn_order = Applied (db', check_winner db').
Proof.
destruct (resolve_with_duels_returns area turn_order)
  as (left & elim & extra & duels & Heq & _).
unfold settlement_phase, resolve_public_area. rewrite Heq. simpl. eauto.
Qed.

(** X21: a request that is answered with success was made in a room that is
  playing, by the player whose turn it is, who has a row.  The turn order
  is never changed.  [Action processed] carries the next turn
  [(current_turn + 1) mod n], stored with the round it reports, and the
  round goes up, and the stored public area is empty, exactly when that
  turn is 0.  [Game finished] is only answered at the end of a round, for a
  winner that is [check_winner] of the stored rows and is not 0; the room is
  then finished and its turn and round are not advanced. *)
Theorem game_action_reply (room_row : option room) (db : players_table)
  (user_id : Z) (act : action) (rep : reply) (r' : room) (db' : players_table) :
game_action room_row db user_id act = Applied (rep, r', db') →
∃ r, room_row = Some r ∧ room_status r = "playing"
  ∧ py_index (room_turn_order r) (room_current_turn r) = Some user_id
  ∧ is_Some (db !! user_id)
  ∧ room_turn_order r' = room_turn_order r
  ∧ let n := Z.of_nat (length (room_turn_order r)) in
    let nt := (room_current_turn r + 1) `mod` n in
    0 ≤ nt < n
    ∧ match rep with
      | ActionProcessed nt' next_round =>
          nt' = nt ∧ room_status r' = "playing"
          ∧ room_current_turn r' = nt ∧ room_current_round r' = next_round
          ∧ (nt ≠ 0 → next_round = room_current_round r)
          ∧ (nt = 0 → next_round = room_current_round r + 1
                      ∧ room_public_area r' = [])
      | GameFinished w =>
          nt = 0 ∧ w ≠ 0 ∧ check_winner db' = Some w
          ∧ room_status r' = "finished"
          ∧ room_current_turn r' = room_current_turn r
          ∧ room_current_round r' = room_current_round r
      end.
Proof.
unfold game_action. intros H.
destruct room_row as [r|]; [| done]. exists r. split; [done |].
destruct (decide (room_status r ≠ "playing")) as [Hs | Hs]; [done |].
apply dec_stable in Hs.
destruct (py_index (room_turn_order r) (room_current_turn r)) as [current|] eqn:Hcur;
  [| done].
simpl in H.
destruct (decide (current ≠ user_id)) as [Hu | Hu]; [done |].
apply dec_stable in Hu. subst current.
destruct (db !! user_id) as [current_player|] eqn:Hrow; [| done].
destruct (apply_action db db current_player (room_public_area r)
            (room_turn_order r) user_id act) as [| |[db1 area1]]; try done.
simpl in H. unfold next_turn in H.
destruct (decide (length (room_turn_order r) = 0%nat)) as [Hlen | Hlen]; [done |].
simpl in H.
assert (0 ≤ (room_current_turn r + 1) `mod` Z.of_nat (length (room_turn_order r))
        < Z.of_nat (length (room_turn_order r))) as Hnt
  by (apply Z.mod_pos_bound; lia).
split; [done |]. split; [done |]. split; [by eexists |].
set (nt := (room_current_turn r + 1) `mod` Z.of_nat (length (room_turn_order r)))
  in *.
destruct (decide (nt = 0)) as [H0 | H0].
- destruct (settlement_phase_applied db db1 area1 (room_turn_order r)) as [db2 Hset].
  rewrite Hset in H. simpl in H.
  destruct (check_winner db2) as [w|] eqn:Hw.
  + destruct (decide (w ≠ 0)) as [Hw0 | Hw0]; injection H as <- <- <-;
      simpl; (split; [done |]); (split; [done |]); repeat split; try done; lia.
  + injection H as <- <- <-.
    simpl; (split; [done |]); (split; [done |]); repeat split; try done; lia.
- injection H as <- <- <-.
  simpl; (split; [done |]); (split; [done |]); repeat split; try done; lia.
Qed.

Lemma game_action_reply_witness :
is_Some ((<[1 := PlayerData (<["1A" := Some 5]> ∅) []]> ∅ : players_table) !! 1).
Proof.
destruct (game_action_reply
            (Some (Room "playing" [1; 2] 1 0 []))
            (<[1 := PlayerData (<["1A" := Some 5]> ∅) []]> ∅) 1 Pass
            (ActionProcessed 1 1) (Room "playing" [1; 2] 1 1 [])
            (<[1 := PlayerData (<["1A" := Some 5]> ∅) []]> ∅))
  as (r & _ & _ & _ & Hsome & _).
- reflexivity.
- exact Hsome.
Defined.

Lemma py_index_Some_length {A} (l : list A) (i : Z) (x : A) :
py_index l i = Some x → length l ≠ 0%nat.
Proof.
unfold py_index. intros H Hlen. destruct l; [| done].
repeat case_decide; done.
Qed.

(** X22: a forward move that completes a round.  The mover's row is then
  written from the row fetched before the move: if a piece of the mover is
  left over, the stored board is the board before the move plus that piece
  in the back row; if not, but a piece of the mover was eliminated, the
  stored board is the board before the move, with the number added to the
  eliminated list; only when the settlement touches no piece of the mover
  does the stored board show the move. *)
Theorem forward_round_end_rows (r : room) (db : players_table) (uid : Z)
  (cell_id : string) (row : player_data) (b1 : gmap string (option Z))
  (area1 left elim : list piece) (extra : option Z) :
room_status r = "playing" →
py_index (room_turn_order r) (room_current_turn r) = Some uid →
db !! uid = Some row →
forward_action (board row) (room_public_area r) uid cell_id = Applied (b1, area1) →
(room_current_turn r + 1) `mod` Z.of_nat (length (room_turn_order r)) = 0 →
resolve_public_area area1 (room_turn_order r) = Some (left, elim, extra) →
∃ rep r' db',
  game_action (Some r) db uid (Forward cell_id) = Applied (rep, r', db')
  ∧ (∀ p, last left = Some p → player_id p = uid
          → db' !! uid
            = Some (PlayerData
                      (place_in_back_row Board.COL_NAMES (board row) (number p))
                      (eliminated row)))
  ∧ ((∀ p, p ∈ left → player_id p ≠ uid)
     → (∀ pre e post,
          elim = pre ++ e :: post → player_id e = uid
          → (∀ e', e' ∈ post → player_id e' ≠ uid)
          → db' !! uid = Some (PlayerData (board row) (eliminated row ++ [number e])))
       ∧ ((∀ e, e ∈ elim → player_id e ≠ uid)
          → db' !! uid = Some (PlayerData b1 (eliminated row)))).
Proof.
intros Hs Hcur Hrow Hfwd Hnt Hres.
pose proof (py_index_Some_length _ _ _ Hcur) as Hlen.
set (db1 := update_player_board db uid b1 (eliminated row)).
set (db2 := return_leftovers db (record_eliminated db db1 elim) left).
assert (db1 !! uid = Some (PlayerData b1 (eliminated row))) as Hdb1.
{ unfold db1, update_player_board. etrans; [apply lookup_alter_eq |].
  unfold players_table in *. by rewrite Hrow. }
assert (∃ rep r', game_action (Some r) db uid (Forward cell_id)
                  = Applied (rep, r', db2)) as (rep & r' & Heq).
{ unfold game_action. rewrite decide_False by (by intros ?).
  rewrite Hcur. simpl. rewrite decide_False by (by intros ?).
  unfold players_table in *. rewrite Hrow. unfold apply_action.
  rewrite Hfwd. simpl. unfold next_turn. rewrite decide_False by done. simpl.
  rewrite decide_True by done.
  unfold settlement_phase. rewrite Hres. simpl. fold db1. fold db2.
  destruct (check_winner db2) as [w|]; [| by eexists _, _].
  destruct (decide (w ≠ 0)); by eexists _, _. }
exists rep, r', db2. split; [done |].
assert (is_Some (record_eliminated db db1 elim !! uid)) as Hsome.
{ rewrite record_eliminated_write_rows. apply write_rows_is_Some. by eexists. }
split.
- intros p Hlast <-. apply last_Some in Hlast as [pre ->].
  unfold db2. rewrite return_leftovers_write_rows.
  apply (write_rows_last player_id
           (λ r p, PlayerData
                     (place_in_back_row Board.COL_NAMES (board r) (number p))
                     (eliminated r))); [done | done |].
  intros e' He'. by apply elem_of_nil in He'.
- intros Hleft. unfold db2.
  rewrite return_leftovers_write_rows, write_rows_other by done.
  rewrite record_eliminated_write_rows. split.
  + intros pre e post -> <- Hpost.
    apply (write_rows_last player_id
             (λ r e, PlayerData (board r) (eliminated r ++ [number e])));
      [done | by eexists | done].
  + intros Helim. by rewrite write_rows_other.
Qed.

Lemma forward_round_end_rows_witness :
∃ rep r' db',
  game_action
    (Some (Room "playing" [1; 2] 1 1 [Piece 3 1]))
    (<[2 := PlayerData (<["1A" := Some 5]> ∅) []]>
       (<[1 := PlayerData (<["1A" := None]> ∅) []]> ∅))
    2 (Forward "1A")
  = Applied (rep, r', db')
  ∧ db' !! 2 = Some (PlayerData (<["1A" := Some 5]> ∅) [5]).
Proof.
destruct (forward_round_end_rows
            (Room "playing" [1; 2] 1 1 [Piece 3 1])
            (<[2 := PlayerData (<["1A" := Some 5]> ∅) []]>
               (<[1 := PlayerData (<["1A" := None]> ∅) []]> ∅))
            2 "1A" (PlayerData (<["1A" := Some 5]> ∅) [])
            (<["1A" := None]> (<["1A" := Some 5]> ∅))
            [Piece 3 1; Piece 5 2] [Piece 3 1] [Piece 5 2] None)
  as (rep & r' & db' & Heq & _ & Hrows); try reflexivity.
exists rep, r', db'. split; [exact Heq |]. clear Heq.
destruct Hrows as [Hlast _].
- intros p Hp. apply list_elem_of_singleton in Hp. subst p. discriminate.
- apply (Hlast [] (Piece 5 2) []); [reflexivity | reflexivity |].
  intros e' He'. destruct (not_elem_of_nil _ He').
Defined.

(** ** Forward to the public area, then recycle *)






(** ** What a player is shown *)


